(** * Chainlink node: ORM batching helpers and the VRF field helpers

    A shallow embedding of [core/store/orm/orm.go] (the [Batch] iterator,
    [UnscopedJobRunsWithStatus] and [ORM.Close]) and of the secp256k1
    field helpers [IsSquare] and [SquareRoot] that the cross-check tests of
    [core/services/vrf] exercise.

    Go's [uint] is taken at its 64-bit width and modelled as [Z] with the
    wrap-around written out; [*big.Int] is modelled as [Z]. *)

From Stdlib Require Import ZArith Lia List Bool String Ascii.
From Stdlib Require Import Sorting.Sorted Sorting.Permutation.
From Stdlib Require Import Znumtheory Zmod.ZmodInv.
From Stdlib Require Strings.Byte.
From Stdlib Require Import DecimalString.
Import ListNotations.
Local Open Scope Z_scope.

(** ** Go's [uint] *)

Module Uint.

Definition bits : Z := 64.
Definition modulus : Z := 2 ^ bits.

Definition wrap (x : Z) : Z := x mod modulus.

(** [a + b] on [uint] operands. *)
Definition add (a b : Z) : Z := wrap (a + b).

Lemma wrap_range x : 0 <= wrap x < modulus.
Proof. unfold wrap. apply Z.mod_pos_bound. reflexivity. Qed.


Lemma add_wrap_l a b : add (wrap a) b = wrap (a + b).
Proof. unfold add, wrap. now rewrite Zplus_mod_idemp_l. Qed.

End Uint.

(** ** Errors and [multierr] *)

(** A non-nil Go [error] is the list of the messages it carries; the nil
    error is [None]. *)
Definition error : Type := option (list string).

Definition errors_New (msg : string) : error := Some [msg].

(** [errors.Wrap(err, msg)]: nil stays nil. *)
Definition errors_Wrap (err : error) (msg : string) : error :=
  match err with
  | None => None
  | Some l => Some (msg :: l)
  end.

(** [multierr.Combine(a, b)]: nil when both are nil, otherwise the non-nil
    errors together. *)
Definition multierr_Combine (a b : error) : error :=
  match a, b with
  | None, None => None
  | Some x, None => Some x
  | None, Some y => Some y
  | Some x, Some y => Some (x ++ y)
  end.

(** ** [Batch] *)

Module Batch.
Section WithCallback.

(** The callback is a Go closure: it may read and write captured state.
    [St] is that state; one invocation takes the state before, the
    [offset] and the [limit], and gives the state after, the count and the
    error. *)
Context {St : Type}.
Variable cb : St -> Z -> Z -> St * (Z * error).

(** What a run of the loop has done: the callback invocations in order
    (offset, limit), the state they left and, once the function has
    returned, its return value. *)
Record run : Type := mkRun {
  calls : list (Z * Z);
  final : St;
  result : option error
}.

(** The [for] loop of [Batch]; [fuel] bounds the number of iterations
    followed.  [result = None] says the loop is still running when the fuel
    is spent. *)
Fixpoint loop (fuel : nat) (offset limit : Z) (s : St) (done : list (Z * Z))
  : run :=
  match fuel with
  | O => mkRun done s None
  | S fuel' =>
      let '(s', (count, err)) := cb s offset limit in
      let done' := done ++ [(offset, limit)] in
      match err with
      | Some e => mkRun done' s' (Some (Some e))
      | None =>
          if count <? limit
          then mkRun done' s' (Some None)
          else loop fuel' (Uint.add offset limit) limit s' done'
      end
  end.

(** [func Batch(chunkSize uint, cb func(offset, limit uint) (uint, error)) error] *)
Definition Batch (fuel : nat) (chunkSize : Z) (s : St) : run :=
  let offset := 0 in
  let limit := 1000 in
  loop fuel offset limit s [].

(** *** The paging the loop is compared with *)

(** Offset handed to invocation number [k] (counting from 0). *)
Definition nth_offset (k : nat) : Z := Uint.wrap (1000 * Z.of_nat k).

(** State before invocation [k] when every invocation gets limit 1000 and
    the offsets [nth_offset]. *)
Fixpoint state_before (s : St) (k : nat) : St :=
  match k with
  | O => s
  | S k' => fst (cb (state_before s k') (nth_offset k') 1000)
  end.

(** Count and error returned by invocation [k]. *)
Definition response (s : St) (k : nat) : Z * error :=
  snd (cb (state_before s k) (nth_offset k) 1000).

(** An invocation ends the loop when it reports an error or a count below
    1000. *)
Definition stops (r : Z * error) : bool :=
  match r with
  | (_, Some _) => true
  | (count, None) => count <? 1000
  end.

(** First invocation among [j, j+1, ..., j+fuel-1] that ends the loop. *)
Fixpoint first_stop_from (fuel j : nat) (s : St) : option nat :=
  match fuel with
  | O => None
  | S fuel' =>
      if stops (response s j) then Some j else first_stop_from fuel' (S j) s
  end.

Definition first_stop (fuel : nat) (s : St) : option nat :=
  first_stop_from fuel 0 s.

Definition expected_calls (k : nat) : list (Z * Z) :=
  map (fun j => (nth_offset j, 1000)) (seq 0 k).

(** The run that the paging predicts for [fuel] iterations from
    invocation [j] on. *)
Definition expected_run_from (fuel j : nat) (s : St) : run :=
  match first_stop_from fuel j s with
  | Some k =>
      mkRun (expected_calls (S k)) (state_before s (S k))
            (Some (snd (response s k)))
  | None => mkRun (expected_calls (j + fuel)) (state_before s (j + fuel)) None
  end.

Lemma nth_offset_S k : Uint.add (nth_offset k) 1000 = nth_offset (S k).
Proof.
  unfold nth_offset. rewrite Uint.add_wrap_l. f_equal. lia.
Qed.

Lemma expected_calls_S k :
  expected_calls (S k) = expected_calls k ++ [(nth_offset k, 1000)].
Proof.
  unfold expected_calls. rewrite seq_S, map_app. reflexivity.
Qed.

Lemma loop_expected fuel : forall j s,
  loop fuel (nth_offset j) 1000 (state_before s j) (expected_calls j)
  = expected_run_from fuel j s.
Proof.
  induction fuel as [|fuel IH]; intros j s; unfold expected_run_from.
  - simpl. now rewrite Nat.add_0_r.
  - simpl loop. simpl first_stop_from.
    pose proof (IH (S j) s) as IH'. unfold expected_run_from in IH'.
    assert (Hs : state_before s (S j)
                 = fst (cb (state_before s j) (nth_offset j) 1000))
      by reflexivity.
    assert (Hr : response s j = snd (cb (state_before s j) (nth_offset j) 1000))
      by reflexivity.
    destruct (cb (state_before s j) (nth_offset j) 1000) as [s' [count err]]
      eqn:Hcb.
    cbn [fst snd] in Hs, Hr. rewrite Hr. cbn [stops].
    destruct err as [e|].
    + now rewrite Hs, Hr, expected_calls_S.
    + destruct (count <? 1000).
      * now rewrite Hs, Hr, expected_calls_S.
      * rewrite nth_offset_S, <- Hs, <- expected_calls_S, IH'.
        now replace (j + S fuel)%nat with (S j + fuel)%nat by lia.
Qed.

Lemma first_stop_from_Some fuel : forall j s k,
  first_stop_from fuel j s = Some k ->
  (j <= k < j + fuel)%nat /\ stops (response s k) = true /\
  forall i, (j <= i < k)%nat -> stops (response s i) = false.
Proof.
  induction fuel as [|fuel IH]; intros j s k H; simpl in H; [discriminate|].
  destruct (stops (response s j)) eqn:Hj.
  - inversion H; subst k. repeat split; [lia|lia|assumption|intros; lia].
  - apply IH in H. destruct H as (Hk & Hs & Hb).
    repeat split; [lia|lia|assumption|].
    intros i Hi. destruct (Nat.eq_dec i j) as [->|Hne]; [assumption|].
    apply Hb. lia.
Qed.

Lemma first_stop_from_None fuel : forall j s,
  first_stop_from fuel j s = None ->
  forall i, (j <= i < j + fuel)%nat -> stops (response s i) = false.
Proof.
  induction fuel as [|fuel IH]; intros j s H i Hi; [lia|].
  simpl in H. destruct (stops (response s j)) eqn:Hj; [discriminate|].
  destruct (Nat.eq_dec i j) as [->|Hne]; [assumption|].
  apply (IH (S j) s H). lia.
Qed.

Lemma expected_calls_nth k m off lim :
  nth_error (expected_calls m) k = Some (off, lim) ->
  lim = 1000 /\ off = nth_offset k.
Proof.
  unfold expected_calls. intros H.
  rewrite nth_error_map in H.
  destruct (nth_error (seq 0 m) k) as [j|] eqn:Hj; [|discriminate].
  assert (Hlt : (k < m)%nat).
  { rewrite <- (length_seq m 0). apply nth_error_Some. rewrite Hj. discriminate. }
  assert (Hjk : j = k).
  { apply (nth_error_nth _ _ 0%nat) in Hj. rewrite seq_nth in Hj; lia. }
  subst j. simpl in H. inversion H. auto.
Qed.

Lemma expected_run_calls fuel j s :
  exists m, calls (expected_run_from fuel j s) = expected_calls m.
Proof.
  unfold expected_run_from. destruct (first_stop_from fuel j s); eexists; reflexivity.
Qed.

End WithCallback.

Arguments mkRun {St} _ _ _.
Arguments calls {St} _.
Arguments final {St} _.
Arguments result {St} _.

(** A callback over [n] records that reports [min limit (n - offset)]
    records per page and counts its invocations. *)
Definition paging_cb (n : Z) (invocations : nat) (offset limit : Z)
  : nat * (Z * error) :=
  (S invocations, (Z.max 0 (Z.min limit (n - offset)), None)).

Example Batch_2500_records :
  Batch (paging_cb 2500) 10 100 O
  = mkRun [(0, 1000); (1000, 1000); (2000, 1000)] 3%nat (Some None).
Proof. reflexivity. Qed.

Example Batch_2000_records_chunk_1 :
  Batch (paging_cb 2000) 10 1 O
  = mkRun [(0, 1000); (1000, 1000); (2000, 1000)] 3%nat (Some None).
Proof. reflexivity. Qed.

(** A callback that fails on its second invocation. *)
Definition failing_cb (invocations : nat) (offset limit : Z)
  : nat * (Z * error) :=
  (S invocations,
   (limit, match invocations with
           | 1%nat => errors_New "boom"
           | _ => None
           end)).

Example Batch_error_on_second_page :
  Batch failing_cb 10 100 O
  = mkRun [(0, 1000); (1000, 1000)] 2%nat (Some (errors_New "boom")).
Proof. reflexivity. Qed.

(** C8. [Batch] never reads [chunkSize].  Every invocation of the callback
    gets limit 1000; invocation number [k] gets offset [1000 * k] (in
    [uint] arithmetic, starting at 0).  The loop ends at the first
    invocation that returns an error or a count below 1000: it returns that
    error, and so returns nil exactly when that invocation returned a nil
    error with a count below 1000.  While no invocation does either, the
    loop goes on. *)
Theorem Batch_pages_by_1000 {St : Type} (cb : St -> Z -> Z -> St * (Z * error))
    (fuel : nat) (chunkSize : Z) (s : St) :
  Batch cb fuel chunkSize s = expected_run_from cb fuel 0 s
  /\ (forall chunkSize', Batch cb fuel chunkSize' s = Batch cb fuel chunkSize s)
  /\ (forall k off lim,
        nth_error (calls (Batch cb fuel chunkSize s)) k = Some (off, lim) ->
        lim = 1000 /\ off = Uint.wrap (1000 * Z.of_nat k))
  /\ (forall k, first_stop cb fuel s = Some k ->
        stops (response cb s k) = true /\
        forall i, (i < k)%nat -> stops (response cb s i) = false)
  /\ (result (Batch cb fuel chunkSize s) = Some None <->
      exists k count, first_stop cb fuel s = Some k /\
                      response cb s k = (count, None) /\ count < 1000)
  /\ (forall e, result (Batch cb fuel chunkSize s) = Some (Some e) <->
        exists k count, first_stop cb fuel s = Some k /\
                        response cb s k = (count, Some e))
  /\ (result (Batch cb fuel chunkSize s) = None <->
      forall i, (i < fuel)%nat -> stops (response cb s i) = false).
Proof.
  assert (Hrun : forall c, Batch cb fuel c s = expected_run_from cb fuel 0 s).
  { intros c. unfold Batch. exact (loop_expected cb fuel 0%nat s). }
  split; [apply Hrun|]. split; [intros c; now rewrite !Hrun|].
  split.
  { intros k off lim H. rewrite Hrun in H.
    destruct (expected_run_calls cb fuel 0%nat s) as [m Hm].
    rewrite Hm in H. exact (expected_calls_nth k m off lim H). }
  split.
  { intros k Hk. apply first_stop_from_Some in Hk.
    destruct Hk as (_ & Hs & Hb). split; [assumption|].
    intros i Hi. apply Hb. lia. }
  rewrite Hrun. unfold expected_run_from, first_stop.
  destruct (first_stop_from cb fuel 0 s) as [k|] eqn:Hk; simpl result.
  - pose proof (first_stop_from_Some cb fuel 0%nat s k Hk) as (Hlt & Hs & Hb).
    destruct (response cb s k) as [count err] eqn:Hresp. simpl snd.
    split; [|split].
    + split.
      * intros H. inversion H; subst err. exists k, count.
        simpl in Hs. apply Z.ltb_lt in Hs. auto.
      * intros (k' & count' & Hk' & Hr' & _). inversion Hk'; subst k'.
        rewrite Hresp in Hr'. now inversion Hr'.
    + intros e. split.
      * intros H. inversion H; subst err. exists k, count. auto.
      * intros (k' & count' & Hk' & Hr'). inversion Hk'; subst k'.
        rewrite Hresp in Hr'. now inversion Hr'.
    + split; [discriminate|].
      intros H. rewrite <- Hresp, H in Hs by lia. discriminate.
  - split; [|split].
    + split; [discriminate|]. intros (k & _ & H & _). discriminate.
    + intros e. split; [discriminate|]. intros (k & _ & H & _). discriminate.
    + split; [|reflexivity]. intros _ i Hi.
      apply (first_stop_from_None cb fuel 0%nat s Hk). lia.
Qed.

End Batch.

(** ** [UnscopedJobRunsWithStatus] *)

Module JobRuns.

(** The columns of [job_runs] that the function reads or orders by, and
    the soft-deletion stamp that [Unscoped] queries do not look at. *)
Record JobRun : Type := mkJobRun {
  ID : string;
  Status : string;
  CreatedAt : Z;
  DeletedAt : option Z
}.

(** [BatchSize], the argument the function hands to [Batch]. *)
Definition BatchSize : Z := 100.

(** Modelled from the spec: [utils.MinUint] is not among the sources; it
    returns the least of its arguments. *)
Definition MinUint (a b : Z) : Z := Z.min a b.

(** The slice expression [l[lo:hi]].  Go panics unless
    [0 <= lo <= hi <= cap(l)]; the bound used here never exceeds [len(l)],
    so the length stands for the capacity.  [None] is the panic. *)
Definition slice {A : Type} (l : list A) (lo hi : Z) : option (list A) :=
  if (0 <=? lo) && (lo <=? hi) && (hi <=? Z.of_nat (List.length l))
  then Some (firstn (Z.to_nat (hi - lo)) (skipn (Z.to_nat lo) l))
  else None.

(** [WHERE status IN (statuses)] and [WHERE job_runs.id IN (ids)]. *)
Definition status_in (statuses : list string) (r : JobRun) : bool :=
  existsb (String.eqb (Status r)) statuses.

Definition id_in (ids : list string) (r : JobRun) : bool :=
  existsb (String.eqb (ID r)) ids.

(** [ORDER BY created_at asc], rows with equal stamps kept in storage
    order. *)
Fixpoint insert_by_created_at (r : JobRun) (l : list JobRun) : list JobRun :=
  match l with
  | [] => [r]
  | x :: l' =>
      if CreatedAt r <=? CreatedAt x
      then r :: l
      else x :: insert_by_created_at r l'
  end.

Fixpoint order_by_created_at (l : list JobRun) : list JobRun :=
  match l with
  | [] => []
  | r :: l' => insert_by_created_at r (order_by_created_at l')
  end.

(** The rows the first query selects, soft-deleted ones included. *)
Definition matching_runs (db : list JobRun) (statuses : list string)
  : list JobRun :=
  order_by_created_at (filter (status_in statuses) db).

(** What [orm.db.Unscoped().Table("job_runs").
     Where("status IN (?)", statuses).Order("created_at asc").
     Pluck("ID", &runIDs)] plucks from the rows [db], read in that order,
    when it succeeds. *)
Definition pluck_run_ids (db : list JobRun) (statuses : list string)
  : list string :=
  map ID (matching_runs db statuses).

(** What [orm.Unscoped().preloadJobRuns().
     Order("job_runs.created_at asc").
     Find(&runs, "job_runs.id IN (?)", batchIDs)] finds among the rows
    [db], read in that order, when it succeeds. *)
Definition find_runs (db : list JobRun) (batchIDs : list string)
  : list JobRun :=
  order_by_created_at (filter (id_in batchIDs) db).

(** The database as one call meets it.  [job_runs] is the table as the
    first query reads it.  The closure asks again for every page, after the
    caller's [cb] has run on the pages before and may have changed the
    table: [find_scan offset] is the table as the query for the page at
    [offset] reads it.  A query that orders by [created_at] leaves the
    order among equal stamps to the database: it is the order in which the
    rows are read, which [order_by_created_at] keeps.  [pluck_error] and
    [find_error offset] are the errors, if any, of the two queries. *)
Record database : Type := mkDatabase {
  job_runs : list JobRun;
  pluck_error : error;
  find_scan : Z -> list JobRun;
  find_error : Z -> error
}.

(** The closure handed to [Batch].  Its state is the list of runs the
    caller's [cb] has been invoked with so far, in order.  A panic of the
    slice expression is shown as an error that ends the loop. *)
Definition batch_cb (db : database) (runIDs : list string)
    (seen : list JobRun) (offset limit : Z) : list JobRun * (Z * error) :=
  match slice runIDs offset (MinUint limit (Z.of_nat (List.length runIDs))) with
  | None => (seen, (0, errors_New "panic: slice bounds out of range"))
  | Some batchIDs =>
      let err := find_error db offset in
      match err with
      | Some _ => (seen, (0, errors_Wrap err "error fetching job run batch"))
      | None =>
          let runs := find_runs (find_scan db offset) batchIDs in
          (seen ++ runs, (Z.of_nat (List.length batchIDs), None))
      end
  end.

(** [func (orm *ORM) UnscopedJobRunsWithStatus(cb func( *models.JobRun),
     statuses ...models.RunStatus) error] *)
Definition UnscopedJobRunsWithStatus (fuel : nat) (db : database)
    (statuses : list string) : Batch.run (St := list JobRun) :=
  let err := pluck_error db in
  match err with
  | Some _ => Batch.mkRun [] [] (Some (errors_Wrap err "finding job ids"))
  | None =>
      let runIDs := pluck_run_ids (job_runs db) statuses in
      Batch.Batch (batch_cb db runIDs) fuel BatchSize []
  end.

(** A database that answers every query, and reads the table the same way
    each time. *)
Definition healthy (table : list JobRun) : database :=
  mkDatabase table None (fun _ => table) (fun _ => None).

Definition le_created_at (a b : JobRun) : Prop := CreatedAt a <= CreatedAt b.

Lemma insert_below r l :
  Forall (le_created_at r) l -> insert_by_created_at r l = r :: l.
Proof.
  intros H. destruct l as [|x l]; [reflexivity|].
  inversion H as [|? ? Hx _]; subst. simpl.
  unfold le_created_at in Hx. apply Z.leb_le in Hx. now rewrite Hx.
Qed.

Lemma insert_In r l x :
  In x (insert_by_created_at r l) <-> x = r \/ In x l.
Proof.
  induction l as [|y l IH]; simpl.
  - intuition congruence.
  - destruct (CreatedAt r <=? CreatedAt y); simpl; rewrite ?IH;
      intuition congruence.
Qed.

Lemma order_In l x : In x (order_by_created_at l) <-> In x l.
Proof.
  induction l as [|y l IH]; simpl; [tauto|].
  rewrite insert_In, IH. intuition congruence.
Qed.

Lemma insert_sorted r l :
  StronglySorted le_created_at l ->
  StronglySorted le_created_at (insert_by_created_at r l).
Proof.
  induction 1 as [|x l Hs IH Hx]; simpl.
  - constructor; constructor.
  - destruct (CreatedAt r <=? CreatedAt x) eqn:Hle.
    + apply Z.leb_le in Hle. constructor; [now constructor|].
      constructor; [exact Hle|].
      eapply Forall_impl; [|exact Hx]. unfold le_created_at in *. intros; lia.
    + apply Z.leb_gt in Hle. constructor; [exact IH|].
      apply Forall_forall. intros y Hy. apply insert_In in Hy.
      destruct Hy as [->|Hy].
      * unfold le_created_at; lia.
      * rewrite Forall_forall in Hx. now apply Hx.
Qed.

Lemma order_sorted l : StronglySorted le_created_at (order_by_created_at l).
Proof.
  induction l; simpl; [constructor|now apply insert_sorted].
Qed.

Lemma filter_insert f r l :
  StronglySorted le_created_at l ->
  filter f (insert_by_created_at r l)
  = if f r then insert_by_created_at r (filter f l) else filter f l.
Proof.
  induction 1 as [|x l Hs IH Hx]; simpl.
  - now destruct (f r).
  - destruct (CreatedAt r <=? CreatedAt x) eqn:Hle; simpl.
    + destruct (f r); [|reflexivity].
      symmetry. apply (insert_below r (filter f (x :: l))).
      apply Forall_forall. intros y Hy. apply filter_In in Hy.
      destruct Hy as [[->|Hy] _].
      * now apply Z.leb_le.
      * apply Z.leb_le in Hle. rewrite Forall_forall in Hx.
        specialize (Hx y Hy). unfold le_created_at in *. lia.
    + rewrite IH. destruct (f x), (f r); simpl; now rewrite ?Hle.
Qed.

(** Selecting rows commutes with the ordering. *)
Lemma filter_order f l :
  filter f (order_by_created_at l) = order_by_created_at (filter f l).
Proof.
  induction l as [|r l IH]; simpl; [reflexivity|].
  rewrite filter_insert by apply order_sorted.
  rewrite IH. now destruct (f r).
Qed.

Lemma order_length l : List.length (order_by_created_at l) = List.length l.
Proof.
  assert (Hi : forall r l',
             List.length (insert_by_created_at r l') = S (List.length l')).
  { intros r l'. induction l' as [|x l' IH]; simpl; [reflexivity|].
    destruct (CreatedAt r <=? CreatedAt x); simpl; now rewrite ?IH. }
  induction l as [|r l IH]; simpl; [reflexivity|]. now rewrite Hi, IH.
Qed.

Lemma insert_perm r l : Permutation (insert_by_created_at r l) (r :: l).
Proof.
  induction l as [|x l IH]; simpl; [reflexivity|].
  destruct (CreatedAt r <=? CreatedAt x); [reflexivity|].
  rewrite IH. apply perm_swap.
Qed.

Lemma order_perm l : Permutation (order_by_created_at l) l.
Proof.
  induction l as [|r l IH]; simpl; [reflexivity|].
  rewrite insert_perm. now constructor.
Qed.

Lemma NoDup_map_filter (f : JobRun -> bool) l :
  NoDup (map ID l) -> NoDup (map ID (filter f l)).
Proof.
  induction l as [|r l IH]; simpl; intros H; [constructor|].
  inversion H as [|? ? Hnotin Hnd]; subst.
  destruct (f r); simpl; [|now apply IH].
  constructor; [|now apply IH].
  intros Hin. apply Hnotin. apply in_map_iff in Hin.
  destruct Hin as (y & Hy & Hin). apply filter_In in Hin.
  apply in_map_iff. exists y. tauto.
Qed.

Lemma NoDup_map_inj l a b :
  NoDup (map ID l) -> In a l -> In b l -> ID a = ID b -> a = b.
Proof.
  induction l as [|r l IH]; simpl; intros Hnd Ha Hb Heq; [contradiction|].
  inversion Hnd as [|? ? Hnotin Hnd']; subst.
  destruct Ha as [->|Ha], Hb as [->|Hb]; auto.
  - exfalso. apply Hnotin. rewrite Heq. now apply in_map.
  - exfalso. apply Hnotin. rewrite <- Heq. now apply in_map.
Qed.

Lemma id_in_In ids r : id_in ids r = true <-> In (ID r) ids.
Proof.
  unfold id_in. rewrite existsb_exists. split.
  - intros (x & Hx & He). apply String.eqb_eq in He. now subst.
  - intros H. exists (ID r). split; [assumption|apply String.eqb_refl].
Qed.

Lemma sorted_app_le l1 : forall l2 a b,
  StronglySorted le_created_at (l1 ++ l2) -> In a l1 -> In b l2 ->
  CreatedAt a <= CreatedAt b.
Proof.
  induction l1 as [|x l1 IH]; intros l2 a b Hs Ha Hb; [contradiction|].
  cbn [app] in Hs. inversion Hs as [|? ? Hs' Hall]; subst.
  destruct Ha as [<-|Ha].
  - rewrite Forall_forall in Hall. apply Hall. apply in_or_app. now right.
  - now apply (IH l2).
Qed.

(** The second query, asked for the first [k] plucked ids, answers with
    the first [k] plucked runs, in an order of its own. *)
Lemma find_first_runs table scan statuses k :
  NoDup (map ID table) -> Permutation scan table ->
  Permutation (find_runs scan (firstn k (pluck_run_ids table statuses)))
              (firstn k (matching_runs table statuses)).
Proof.
  intros Hnd Hscan. unfold find_runs, pluck_run_ids.
  set (L := matching_runs table statuses).
  assert (HLin : forall x, In x L <-> In x table /\ status_in statuses x = true).
  { intros x. unfold L, matching_runs. rewrite order_In. apply filter_In. }
  assert (HndL : NoDup L).
  { unfold L, matching_runs. eapply Permutation_NoDup.
    - symmetry. apply order_perm.
    - apply NoDup_filter. now apply NoDup_map_inv in Hnd. }
  assert (Hfirst : forall x, In x (firstn k L) -> In x L).
  { intros x Hx. rewrite <- (firstn_skipn k L). apply in_or_app. now left. }
  rewrite order_perm. rewrite firstn_map.
  apply NoDup_Permutation.
  - apply NoDup_filter. eapply Permutation_NoDup; [symmetry; exact Hscan|].
    now apply NoDup_map_inv in Hnd.
  - rewrite <- (firstn_skipn k L) in HndL. now apply NoDup_app_remove_r in HndL.
  - intros x. rewrite filter_In, id_in_In. split.
    + intros [Hx Hid]. apply in_map_iff in Hid. destruct Hid as (z & Hz & Hin).
      assert (z = x).
      { apply (NoDup_map_inj table); auto.
        - apply Hfirst in Hin. now apply HLin in Hin.
        - now apply (Permutation_in _ Hscan). }
      now subst z.
    + intros Hx. split.
      * apply (Permutation_in _ (Permutation_sym Hscan)).
        apply Hfirst in Hx. now apply HLin in Hx.
      * now apply in_map.
Qed.

Lemma slice_first_page {A : Type} (l : list A) :
  slice l 0 (MinUint 1000 (Z.of_nat (List.length l)))
  = Some (firstn (Nat.min (List.length l) 1000) l).
Proof.
  unfold slice, MinUint.
  replace ((0 <=? 0) && (0 <=? Z.min 1000 (Z.of_nat (List.length l)))
           && (Z.min 1000 (Z.of_nat (List.length l)) <=? Z.of_nat (List.length l)))
    with true
    by (symmetry; rewrite !andb_true_iff, !Z.leb_le; lia).
  simpl skipn. do 2 f_equal. lia.
Qed.

Lemma slice_second_page {A : Type} (l : list A) :
  (1000 <= List.length l)%nat ->
  slice l 1000 (MinUint 1000 (Z.of_nat (List.length l))) = Some [].
Proof.
  intros H. unfold slice, MinUint.
  replace (Z.min 1000 (Z.of_nat (List.length l))) with 1000 by lia.
  replace ((0 <=? 1000) && (1000 <=? 1000)
           && (1000 <=? Z.of_nat (List.length l)))
    with true
    by (symmetry; rewrite !andb_true_iff, !Z.leb_le; lia).
  reflexivity.
Qed.

Lemma find_runs_nil table : find_runs table [] = [].
Proof.
  unfold find_runs.
  replace (filter (id_in []) table) with (@nil JobRun); [reflexivity|].
  induction table as [|r table IH]; simpl; [reflexivity|exact IH].
Qed.

Lemma batch_cb_first_page db runIDs :
  find_error db 0 = None ->
  let k := Nat.min (List.length runIDs) 1000 in
  batch_cb db runIDs [] 0 1000
  = (find_runs (find_scan db 0) (firstn k runIDs), (Z.of_nat k, None)).
Proof.
  intros Hfind k. unfold batch_cb. rewrite slice_first_page, Hfind. fold k.
  cbn [app]. rewrite length_firstn.
  now replace (Nat.min k (List.length runIDs)) with k by lia.
Qed.

Lemma batch_cb_second_page db runIDs seen :
  (1000 <= List.length runIDs)%nat ->
  batch_cb db runIDs seen 1000 1000
  = (seen, (0, errors_Wrap (find_error db 1000) "error fetching job run batch")).
Proof.
  intros H. unfold batch_cb. rewrite slice_second_page by assumption.
  destruct (find_error db 1000) as [e|]; [reflexivity|].
  now rewrite find_runs_nil, app_nil_r.
Qed.

Lemma batch_cb_failed_page db runIDs :
  find_error db 0 <> None ->
  batch_cb db runIDs [] 0 1000
  = ([], (0, errors_Wrap (find_error db 0) "error fetching job run batch")).
Proof.
  intros Hfind. unfold batch_cb. rewrite slice_first_page.
  destruct (find_error db 0) as [e|]; [reflexivity|now elim Hfind].
Qed.

(** A table of [n] runs with status [st], ids and stamps [0 .. n-1]. *)
Definition numbered_run (st : string) (i : nat) : JobRun :=
  mkJobRun (String (ascii_of_nat (i / 128)) (String (ascii_of_nat (i mod 128)) EmptyString))
           st (Z.of_nat i) None.

Definition numbered_table (st : string) (n : nat) : list JobRun :=
  map (numbered_run st) (seq 0 n).

Example three_runs_two_match :
  Batch.final
    (UnscopedJobRunsWithStatus 5
       (healthy [mkJobRun "c" "completed" 30 None;
                 mkJobRun "b" "in_progress" 20 None;
                 mkJobRun "a" "in_progress" 10 (Some 99)])
       ["in_progress"%string])
  = [mkJobRun "a" "in_progress" 10 (Some 99);
     mkJobRun "b" "in_progress" 20 None].
Proof. reflexivity. Qed.

Example run_1001_never_reaches_cb :
  let table := numbered_table "errored" 1001 in
  let r := UnscopedJobRunsWithStatus 5 (healthy table) ["errored"%string] in
  List.length (pluck_run_ids table ["errored"%string]) = 1001%nat
  /\ Batch.calls r = [(0, 1000); (1000, 1000)]
  /\ Batch.result r = Some None
  /\ map ID (Batch.final r)
     = map ID (numbered_table "errored" 1000).
Proof. vm_compute. repeat split. Qed.

Example failed_queries_are_reported :
  let table := [mkJobRun "a" "errored" 10 None] in
  UnscopedJobRunsWithStatus 5
    (mkDatabase table (errors_New "connection lost") (fun _ => table)
                (fun _ => None))
    ["errored"%string]
  = Batch.mkRun [] [] (Some (Some ["finding job ids"; "connection lost"]%string))
  /\ UnscopedJobRunsWithStatus 5
       (mkDatabase table None (fun _ => table)
                   (fun _ => errors_New "connection lost"))
       ["errored"%string]
     = Batch.mkRun [(0, 1000)] []
         (Some (Some ["error fetching job run batch";
                      "connection lost"]%string)).
Proof. split; reflexivity. Qed.

(** C9. With distinct run ids, [UnscopedJobRunsWithStatus] hands to its
    callback exactly the first [min n 1000] of the [n] runs that match the
    statuses, ordered by [created_at] ascending.  The query of the first
    batch reads the rows that the first query read (nothing runs between
    the two), in whatever order; later queries may find the table changed
    by the callback.  When both queries
    succeed, the runs handed over are ascending in [created_at], are
    [min n 1000] different matching runs, and no matching run that was
    left out is older than one that was handed over; their ids are the
    first [min n 1000] of the plucked ids, which are the ids of the
    matching runs in ascending [created_at].  The slice of each batch ends
    at [min limit n], not at [offset + limit]: with 1000 or more matches
    the second batch is the empty slice, the loop ends there (with nil, or
    with the error of the second query), and the matches after the first
    1000 never reach the callback.  When the first query fails the
    function returns its error, wrapped, and the callback is not invoked;
    likewise when the query of the first batch fails. *)
Theorem UnscopedJobRunsWithStatus_first_1000
    (db : database) (statuses : list string) (fuel : nat) :
  NoDup (map ID (job_runs db)) ->
  Permutation (find_scan db 0) (job_runs db) ->
  (2 <= fuel)%nat ->
  let matching := filter (status_in statuses) (job_runs db) in
  let n := List.length matching in
  let runIDs := pluck_run_ids (job_runs db) statuses in
  let r := UnscopedJobRunsWithStatus fuel db statuses in
  let seen := Batch.final r in
  (pluck_error db = None -> find_error db 0 = None ->
     StronglySorted le_created_at seen
     /\ NoDup seen /\ incl seen matching
     /\ List.length seen = Nat.min n 1000
     /\ (forall x y, In x matching -> ~ In x seen -> In y seen ->
                     CreatedAt y <= CreatedAt x)
     /\ (exists plucked,
           runIDs = map ID plucked /\ Permutation plucked matching
           /\ StronglySorted le_created_at plucked)
     /\ Permutation (map ID seen) (firstn (Nat.min n 1000) runIDs)
     /\ Batch.calls r
        = (if (n <? 1000)%nat then [(0, 1000)] else [(0, 1000); (1000, 1000)])
     /\ ((1000 <= n)%nat ->
         slice runIDs 1000 (MinUint 1000 (Z.of_nat (List.length runIDs)))
         = Some [])
     /\ Batch.result r
        = Some (if (n <? 1000)%nat then None
                else errors_Wrap (find_error db 1000)
                       "error fetching job run batch"))
  /\ (pluck_error db <> None ->
      r = Batch.mkRun [] []
            (Some (errors_Wrap (pluck_error db) "finding job ids")))
  /\ (pluck_error db = None -> find_error db 0 <> None ->
      r = Batch.mkRun [(0, 1000)] []
            (Some (errors_Wrap (find_error db 0)
                     "error fetching job run batch"))).
Proof.
  intros Hnd Hscan Hfuel matching n runIDs r seen.
  set (L := matching_runs (job_runs db) statuses).
  assert (HL : Permutation L matching) by apply order_perm.
  assert (HLsorted : StronglySorted le_created_at L) by apply order_sorted.
  assert (Hn : List.length runIDs = n).
  { unfold runIDs, pluck_run_ids. rewrite length_map. fold L.
    now apply Permutation_length. }
  split; [|split].
  - intros Hpluck Hfind.
    set (k := Nat.min n 1000).
    set (runs := find_runs (find_scan db 0) (firstn k runIDs)).
    assert (Hr : r = Batch.mkRun
                   (if (n <? 1000)%nat then [(0, 1000)]
                    else [(0, 1000); (1000, 1000)])
                   runs
                   (Some (if (n <? 1000)%nat then None
                          else errors_Wrap (find_error db 1000)
                                 "error fetching job run batch"))).
    { unfold r, UnscopedJobRunsWithStatus. rewrite Hpluck.
      fold runIDs. unfold Batch.Batch.
      destruct fuel as [|[|fuel]]; try lia.
      cbn [Batch.loop].
      pose proof (batch_cb_first_page db runIDs Hfind) as H1.
      cbv zeta in H1. rewrite Hn in H1. fold k in H1. fold runs in H1.
      rewrite H1.
      destruct (n <? 1000)%nat eqn:Hlt.
      - apply Nat.ltb_lt in Hlt.
        replace (Z.of_nat k <? 1000) with true
          by (symmetry; apply Z.ltb_lt; lia).
        reflexivity.
      - apply Nat.ltb_ge in Hlt.
        replace (Z.of_nat k <? 1000) with false
          by (symmetry; apply Z.ltb_ge; lia).
        change (Uint.add 0 1000) with 1000.
        rewrite batch_cb_second_page by lia.
        destruct (find_error db 1000) as [e|]; reflexivity. }
    assert (Hseen : seen = runs) by (unfold seen; now rewrite Hr).
    assert (Hperm : Permutation runs (firstn k L)).
    { unfold runs, runIDs. now apply find_first_runs. }
    assert (Hfirst : forall x, In x (firstn k L) -> In x L).
    { intros x Hx. rewrite <- (firstn_skipn k L). apply in_or_app. now left. }
    rewrite Hseen.
    split; [apply order_sorted|].
    split.
    { eapply Permutation_NoDup; [symmetry; exact Hperm|].
      assert (HndL : NoDup L).
      { eapply Permutation_NoDup; [symmetry; exact HL|].
        apply NoDup_filter. now apply NoDup_map_inv in Hnd. }
      rewrite <- (firstn_skipn k L) in HndL.
      now apply NoDup_app_remove_r in HndL. }
    split.
    { intros x Hx. apply (Permutation_in _ HL). apply Hfirst.
      now apply (Permutation_in _ Hperm). }
    split.
    { rewrite (Permutation_length Hperm), length_firstn.
      rewrite (Permutation_length HL). fold n. unfold k. lia. }
    split.
    { intros x y Hx Hnot Hy.
      apply (sorted_app_le (firstn k L) (skipn k L)).
      - now rewrite firstn_skipn.
      - now apply (Permutation_in _ Hperm).
      - apply (Permutation_in _ (Permutation_sym HL)) in Hx.
        rewrite <- (firstn_skipn k L) in Hx. apply in_app_or in Hx.
        destruct Hx as [Hx|Hx]; [|exact Hx].
        exfalso. apply Hnot.
        now apply (Permutation_in _ (Permutation_sym Hperm)). }
    split; [exists L; auto|].
    split.
    { unfold runIDs, pluck_run_ids. fold L. rewrite firstn_map.
      now apply Permutation_map. }
    rewrite Hr. cbn [Batch.calls Batch.result].
    split; [reflexivity|]. split; [|reflexivity].
    intros Hbig. apply slice_second_page. lia.
  - intros Hpluck. unfold r, UnscopedJobRunsWithStatus.
    destruct (pluck_error db) as [e|]; [reflexivity|now elim Hpluck].
  - intros Hpluck Hfind. unfold r, UnscopedJobRunsWithStatus.
    rewrite Hpluck. unfold Batch.Batch.
    destruct fuel as [|fuel]; [lia|]. cbn [Batch.loop].
    rewrite batch_cb_failed_page by exact Hfind.
    destruct (find_error db 0) as [e|]; [reflexivity|now elim Hfind].
Qed.

(** The theorem applied to a table of three runs that the second query
    reads in another order than the first. *)
Lemma UnscopedJobRunsWithStatus_first_1000_witness :
  let table := [mkJobRun "c" "completed" 30 None;
                mkJobRun "b" "in_progress" 20 None;
                mkJobRun "a" "in_progress" 10 (Some 99)] in
  let db := mkDatabase table None (fun _ => rev table) (fun _ => None) in
  let r := UnscopedJobRunsWithStatus 2 db ["in_progress"%string] in
  StronglySorted le_created_at (Batch.final r)
  /\ List.length (Batch.final r) = 2%nat
  /\ Batch.result r = Some None.
Proof.
  intros table db r.
  assert (Hnd : NoDup (map ID (job_runs db))).
  { cbn. repeat constructor; cbn; intuition discriminate. }
  assert (Hscan : Permutation (find_scan db 0) (job_runs db)).
  { cbn [find_scan job_runs db]. symmetry. apply Permutation_rev. }
  destruct (UnscopedJobRunsWithStatus_first_1000 db ["in_progress"%string] 2
              Hnd Hscan (le_n 2))
    as [H _].
  specialize (H eq_refl eq_refl).
  destruct H as (H1 & _ & _ & H4 & _ & _ & _ & _ & _ & H10).
  split; [exact H1|]. split; [exact H4|exact H10].
Defined.

End JobRuns.

(** ** [ORM.Close] *)

Module Close.
Section WithCollaborators.

(** The connection and the lock live outside the [ORM] value: [World] is
    their state, [db_Close] is [orm.db.Close()] and
    [lockingStrategy_Unlock] is [orm.lockingStrategy.Unlock(timeout)].
    Each may fail. *)
Variable World : Type.
Variable db_Close : World -> World * error.
Variable lockingStrategy_Unlock : Z -> World -> World * error.

(** The fields of [ORM] that [Close] reads; [closeOnce] is the done flag
    of the [sync.Once]. *)
Record ORM : Type := mkORM {
  advisoryLockTimeout : Z;
  closeOnce : bool
}.

(** An [ORM] as [NewORM] returns it. *)
Definition NewORM (timeout : Z) : ORM := mkORM timeout false.

(** [func (orm *ORM) Close() error].  The error variable is local to the
    call and starts nil; the function given to [closeOnce.Do] runs only
    while the flag is unset, and sets it. *)
Definition Close (orm : ORM) (w : World) : ORM * World * error :=
  let err : error := None in
  if closeOnce orm
  then (orm, w, err)
  else
    let '(w1, e1) := db_Close w in
    let '(w2, e2) := lockingStrategy_Unlock (advisoryLockTimeout orm) w1 in
    let err := multierr_Combine e1 e2 in
    (mkORM (advisoryLockTimeout orm) true, w2, err).

(** [n] calls in a row; the errors they returned, first call first. *)
Fixpoint Close_times (n : nat) (orm : ORM) (w : World)
  : ORM * World * list error :=
  match n with
  | O => (orm, w, [])
  | S n' =>
      let '(orm1, w1, e) := Close orm w in
      let '(orm2, w2, es) := Close_times n' orm1 w1 in
      (orm2, w2, e :: es)
  end.

Lemma Close_closed orm w :
  closeOnce orm = true -> Close orm w = (orm, w, None).
Proof. intros H. unfold Close. now rewrite H. Qed.

Lemma Close_sets_flag orm w : closeOnce (fst (fst (Close orm w))) = true.
Proof.
  unfold Close. destruct (closeOnce orm) eqn:H; [exact H|].
  destruct (db_Close w) as [w1 e1].
  destruct (lockingStrategy_Unlock (advisoryLockTimeout orm) w1) as [w2 e2].
  reflexivity.
Qed.

Lemma Close_times_closed n : forall orm w,
  closeOnce orm = true ->
  Close_times n orm w = (orm, w, repeat None n).
Proof.
  induction n as [|n IH]; intros orm w H; simpl; [reflexivity|].
  rewrite (Close_closed orm w H), (IH orm w H). reflexivity.
Qed.

End WithCollaborators.

Arguments mkORM _ _ : clear implicits.

(** A world that counts the calls and in which both collaborators fail. *)
Definition counting_db_Close (w : nat * nat) : (nat * nat) * error :=
  ((S (fst w), snd w), errors_New "db close failed").

Definition counting_Unlock (timeout : Z) (w : nat * nat)
  : (nat * nat) * error :=
  ((fst w, S (snd w)), errors_New "advisory lock release failed").

Example close_three_times :
  Close_times (nat * nat) counting_db_Close counting_Unlock 3
    (NewORM 15) (O, O)
  = (mkORM 15 true, (1%nat, 1%nat),
     [Some ["db close failed"; "advisory lock release failed"]%string;
      None; None]).
Proof. reflexivity. Qed.

(** C10. [Close] is idempotent.  On an [ORM] fresh from [NewORM] the first
    call closes the connection, then releases the lock, and returns the two
    results combined.  After any call the once-flag is set, so every later
    call, in whatever state the world is then, touches nothing and returns
    nil, whatever the first call returned. *)
Theorem Close_idempotent (World : Type) (db_Close : World -> World * error)
    (Unlock : Z -> World -> World * error) (timeout : Z) (w : World) :
  let close := Close World db_Close Unlock in
  let orm1 := fst (fst (close (NewORM timeout) w)) in
  close (NewORM timeout) w
  = (mkORM timeout true,
     fst (Unlock timeout (fst (db_Close w))),
     multierr_Combine (snd (db_Close w))
                      (snd (Unlock timeout (fst (db_Close w)))))
  /\ (forall w', close orm1 w' = (orm1, w', None))
  /\ (forall orm0 w0 w',
        close (fst (fst (close orm0 w0))) w'
        = (fst (fst (close orm0 w0)), w', None))
  /\ (forall n w',
        Close_times World db_Close Unlock n orm1 w'
        = (orm1, w', repeat None n)).
Proof.
  intros close orm1.
  assert (Hany : forall orm0 w0 w',
             close (fst (fst (close orm0 w0))) w'
             = (fst (fst (close orm0 w0)), w', None)).
  { intros orm0 w0 w'. apply Close_closed. apply Close_sets_flag. }
  split; [|split; [|split]].
  - unfold close, Close, NewORM. simpl.
    destruct (db_Close w) as [w1 e1]. simpl.
    destruct (Unlock timeout w1) as [w2 e2]. reflexivity.
  - intros w'. apply Hany.
  - exact Hany.
  - intros n w'. apply Close_times_closed. apply Close_sets_flag.
Qed.

End Close.

(** ** Modular exponentiation *)

(** Modelled from the spec: the [exp(base, exponent, modulus)] helper of the
    VRF package is not among the sources (only its tests are); it is
    modular exponentiation on [big.Int]s.  Computed by squaring along the
    bits of the exponent; a negative exponent, which the field helpers never
    pass, gives what [Z.pow] gives. *)
Fixpoint exp_pos (base : Z) (exponent : positive) (modulus : Z) : Z :=
  match exponent with
  | xH => base mod modulus
  | xO e =>
      let r := exp_pos base e modulus in
      (r * r) mod modulus
  | xI e =>
      let r := exp_pos base e modulus in
      (((r * r) mod modulus) * base) mod modulus
  end.

Definition exp (base exponent modulus : Z) : Z :=
  match exponent with
  | Z0 => 1 mod modulus
  | Zpos e => exp_pos base e modulus
  | Zneg _ => 0 mod modulus
  end.

Lemma mul_mod_both a b n : (a mod n * (b mod n)) mod n = (a * b) mod n.
Proof.
  destruct (Z.eq_dec n 0) as [->|Hn].
  - now rewrite !Z.mod_0_r.
  - symmetry. now apply Z.mul_mod.
Qed.

Lemma mul_mod_left a b n : (a mod n * b) mod n = (a * b) mod n.
Proof.
  destruct (Z.eq_dec n 0) as [->|Hn].
  - now rewrite !Z.mod_0_r.
  - now apply Z.mul_mod_idemp_l.
Qed.

Lemma exp_pos_spec b m : forall e, exp_pos b e m = b ^ Zpos e mod m.
Proof.
  induction e as [e IH|e IH|]; cbn [exp_pos].
  - rewrite IH, Pos2Z.inj_xI.
    replace (2 * Z.pos e + 1) with (Z.pos e + Z.pos e + 1) by lia.
    rewrite !Z.pow_add_r, Z.pow_1_r by lia.
    now rewrite mul_mod_both, mul_mod_left.
  - rewrite IH, Pos2Z.inj_xO.
    replace (2 * Z.pos e) with (Z.pos e + Z.pos e) by lia.
    rewrite Z.pow_add_r by lia.
    now rewrite mul_mod_both.
  - now rewrite Z.pow_1_r.
Qed.

(** [exp] is exponentiation followed by reduction. *)
Lemma exp_spec b e m : exp b e m = b ^ e mod m.
Proof.
  destruct e as [|e|e]; cbn [exp].
  - reflexivity.
  - apply exp_pos_spec.
  - reflexivity.
Qed.

(** ** Primality certificates

    The field helpers are correct because [fieldSize] is prime.  Small
    primes are checked by trial division, large ones by Pocklington's
    criterion. *)

Module Primality.

(** [trial_division n d fuel]: no [e] with [d <= e] and [e * e <= n]
    divides [n]; [false] when the fuel runs out first. *)
Fixpoint trial_division (n d : Z) (fuel : nat) : bool :=
  match fuel with
  | O => false
  | S fuel' =>
      if n <? d * d then true
      else if n mod d =? 0 then false
      else trial_division n (d + 1) fuel'
  end.

Definition small_prime (n : Z) : bool :=
  (1 <? n) && trial_division n 2 (S (Z.to_nat (Z.sqrt n))).

Definition prod (l : list Z) : Z := fold_right Z.mul 1 l.

Fixpoint pairwise_coprime (l : list Z) : bool :=
  match l with
  | [] => true
  | q :: l' => (Z.gcd q (prod l') =? 1) && pairwise_coprime l'
  end.

(** Pocklington's criterion for [N] with witness [a] and the primes [qs]
    dividing [N - 1]: [a ^ (N-1) = 1 (mod N)], for each [q] the number
    [a ^ ((N-1)/q) - 1] is coprime to [N], and the product of the [qs]
    exceeds the square root of [N]. *)
Definition pocklington_check (N a : Z) (qs : list Z) : bool :=
  (1 <? N)
  && (exp a (N - 1) N =? 1)
  && forallb (fun q => ((N - 1) mod q =? 0)
                       && (Z.gcd (exp a ((N - 1) / q) N - 1) N =? 1)) qs
  && pairwise_coprime qs
  && (N <? (prod qs + 1) * (prod qs + 1)).

Lemma trial_division_sound fuel : forall n d,
  2 <= d ->
  (forall e, 2 <= e < d -> ~ (e | n)) ->
  trial_division n d fuel = true ->
  forall e, 2 <= e -> e * e <= n -> ~ (e | n).
Proof.
  induction fuel as [|fuel IH]; intros n d Hd Hbelow H e He Hee;
    cbn [trial_division] in H; [discriminate|].
  destruct (n <? d * d) eqn:Hnd.
  - apply Z.ltb_lt in Hnd. apply Hbelow. nia.
  - destruct (n mod d =? 0) eqn:Hmod; [discriminate|].
    apply Z.eqb_neq in Hmod.
    apply (IH n (d + 1)); try assumption; [lia|].
    intros e' He'. destruct (Z.eq_dec e' d) as [->|Hne].
    + intros Hdiv. apply Hmod. now apply Z.mod0_divide.
    + apply Hbelow. lia.
Qed.

Lemma no_small_divisor_prime n :
  1 < n ->
  (forall e, 2 <= e -> e * e <= n -> ~ (e | n)) ->
  Z.prime n.
Proof.
  intros Hn H. split; [assumption|].
  intros m Hm [k Hk].
  assert (Hk1 : 1 < k) by nia.
  destruct (Z_le_gt_dec (m * m) n) as [Hle|Hgt].
  - apply (H m); [lia|assumption|]. now exists k.
  - apply (H k); [lia|nia|]. exists m. lia.
Qed.

Lemma small_prime_sound n : small_prime n = true -> Z.prime n.
Proof.
  unfold small_prime. intros H. apply andb_true_iff in H.
  destruct H as [Hn Ht]. apply Z.ltb_lt in Hn.
  apply no_small_divisor_prime; [assumption|].
  apply (trial_division_sound (S (Z.to_nat (Z.sqrt n))) n 2);
    [lia| |assumption].
  intros e He. lia.
Qed.

(** Every number above 1 has a prime divisor. *)
Lemma prime_divisor_exists n :
  1 < n -> exists r, Z.prime r /\ (r | n).
Proof.
  intros Hn. assert (H0 : 0 <= n) by lia. revert Hn.
  pattern n. apply Z_lt_induction; [|assumption]. clear n H0.
  intros n IH Hn.
  destruct (prime_dec n) as [Hp|Hnp].
  - exists n. split; [now apply prime_alt|apply Z.divide_refl].
  - destruct (not_prime_divide n Hn Hnp) as (d & Hd & Hdiv).
    destruct (IH d) as (r & Hr & Hrd); [lia|lia|].
    exists r. split; [assumption|]. now apply Z.divide_trans with d.
Qed.

Lemma pow_mod_one_mul a g k r :
  0 <= g -> 0 <= k -> a ^ g mod r = 1 -> a ^ (g * k) mod r = 1 mod r.
Proof.
  intros Hg Hk H.
  rewrite Z.pow_mul_r by assumption.
  rewrite <- Z.mod_pow_l, H. now rewrite Z.pow_1_l.
Qed.

(** If two powers of [a] are 1 modulo [r], so is the power with the gcd of
    the exponents. *)
Lemma pow_mod_one_gcd a r : 1 < r -> forall y, 0 <= y -> forall x, 0 <= x ->
  a ^ x mod r = 1 -> a ^ y mod r = 1 -> a ^ Z.gcd x y mod r = 1.
Proof.
  intros Hr y Hy. pattern y. apply Z_lt_induction; [|assumption].
  clear y Hy. intros y IH x Hx Hax Hay.
  destruct (Z.eq_dec y 0) as [->|Hy0].
  - now rewrite Z.gcd_0_r_nonneg.
  - destruct (Z_lt_le_dec y 0) as [Hneg|Hy].
    { rewrite Z.pow_neg_r in Hay by assumption.
      rewrite Z.mod_0_l in Hay by lia. discriminate. }
    assert (Hb : 0 <= x mod y < y) by (apply Z.mod_pos_bound; lia).
    assert (Hq : 0 <= x / y) by (apply Z.div_pos; lia).
    assert (Hrem : a ^ (x mod y) mod r = 1).
    { rewrite (Z.div_mod x y) in Hax at 1 by assumption.
      rewrite Z.pow_add_r in Hax by nia.
      rewrite <- mul_mod_left in Hax.
      rewrite (pow_mod_one_mul a y (x / y) r) in Hax by assumption.
      rewrite mul_mod_left, Z.mul_1_l in Hax. exact Hax. }
    rewrite Z.gcd_comm, <- Z.gcd_mod, Z.gcd_comm by assumption.
    apply IH; try lia; assumption.
Qed.

(** The heart of the criterion: a prime [q] of the certificate divides
    [r - 1] for every prime divisor [r] of [N]. *)
Lemma pocklington_factor N a q r :
  1 < N ->
  exp a (N - 1) N = 1 ->
  Z.prime q -> (q | N - 1) ->
  Z.gcd (exp a ((N - 1) / q) N - 1) N = 1 ->
  Z.prime r -> (r | N) ->
  (q | r - 1).
Proof.
  intros HN Ha Hq Hqdiv Hgcd Hr Hrdiv.
  pose proof (Z.prime_ge_2 _ Hr) as Hr2.
  pose proof (Z.prime_ge_2 _ Hq) as Hq2.
  rewrite exp_spec in Ha, Hgcd.
  assert (Har : a ^ (N - 1) mod r = 1).
  { rewrite <- (Z.mod_mod_divide _ N r) by assumption.
    rewrite Ha. apply Z.mod_1_l. lia. }
  assert (Hanz : a mod r <> 0).
  { intros H0. rewrite <- Z.mod_pow_l, H0, Z.pow_0_l in Har by lia.
    rewrite Z.mod_0_l in Har by lia. discriminate. }
  pose proof (Z.fermat_nz r a Hr Hanz) as Hfermat.
  set (g := Z.gcd (N - 1) (r - 1)).
  assert (Hg : a ^ g mod r = 1).
  { apply pow_mod_one_gcd; try lia; assumption. }
  destruct (Z.eq_dec ((r - 1) mod q) 0) as [Hyes|Hmod].
  { apply Z.mod_divide; [lia|assumption]. }
  assert (Hno : ~ (q | r - 1))
    by (intros Hd; apply Hmod; now apply Z.mod0_divide).
  exfalso.
  assert (Hg0 : 0 <= g) by apply Z.gcd_nonneg.
  assert (Hgq : Z.gcd g q = 1).
  { apply Z.gcd_unique; [lia|apply Z.divide_1_l|apply Z.divide_1_l|].
    intros d Hdg Hdq.
    pose proof (Z.coprime_prime_l q (r - 1) Hq Hno) as Hc.
    unfold Z.coprime in Hc. rewrite <- Hc.
    apply Z.gcd_greatest; [assumption|].
    apply Z.divide_trans with g; [assumption|apply Z.gcd_divide_r]. }
  set (m := (N - 1) / q).
  assert (Hm : N - 1 = q * m).
  { unfold m. apply Z.div_exact; [lia|]. now apply Z.mod0_divide. }
  assert (Hgm : (g | m)).
  { apply (Z.gauss g q m); [|assumption].
    rewrite <- Hm. apply Z.gcd_divide_l. }
  destruct Hgm as [k Hk].
  assert (Hm0 : 0 <= m) by nia.
  assert (Hgpos : 0 < g).
  { destruct (Z.eq_dec g 0) as [E|E]; [|lia].
    apply Z.gcd_eq_0_l in E. lia. }
  assert (Hk0 : 0 <= k) by nia.
  assert (Ham : a ^ m mod r = 1).
  { rewrite Hk, Z.mul_comm.
    rewrite (pow_mod_one_mul a g k r) by assumption.
    apply Z.mod_1_l. lia. }
  assert (Hdiv1 : (r | a ^ m mod N - 1)).
  { apply Z.mod_divide; [lia|].
    rewrite <- Zminus_mod_idemp_l.
    rewrite Z.mod_mod_divide by assumption.
    rewrite Ham. reflexivity. }
  fold m in Hgcd.
  assert (Hr1 : (r | 1)).
  { rewrite <- Hgcd. now apply Z.gcd_greatest. }
  apply Z.divide_1_r_nonneg in Hr1; lia.
Qed.

Lemma pairwise_coprime_prod_divide qs : forall n,
  pairwise_coprime qs = true ->
  Forall (fun q => (q | n)) qs ->
  (prod qs | n).
Proof.
  induction qs as [|q qs IH]; intros n Hc Hall; cbn [prod fold_right].
  - apply Z.divide_1_l.
  - cbn [pairwise_coprime] in Hc. apply andb_true_iff in Hc.
    destruct Hc as [Hg Hc]. apply Z.eqb_eq in Hg.
    inversion Hall as [|? ? Hq Hrest]; subst.
    specialize (IH n Hc Hrest). fold (prod qs) in *.
    destruct IH as [k Hk].
    assert (Hqk : (q | k)).
    { apply (Z.gauss q (prod qs) k); [|assumption].
      rewrite Z.mul_comm, <- Hk. assumption. }
    destruct Hqk as [j Hj]. exists j. rewrite Hk, Hj. ring.
Qed.

Theorem pocklington N a qs :
  Forall Z.prime qs ->
  pocklington_check N a qs = true ->
  Z.prime N.
Proof.
  intros Hprimes Hcheck. unfold pocklington_check in Hcheck.
  repeat (apply andb_true_iff in Hcheck; destruct Hcheck as [Hcheck ?]).
  rename H into Hbig, H0 into Hcop, H1 into Hqs, H2 into Ha.
  apply Z.ltb_lt in Hcheck, Hbig. apply Z.eqb_eq in Ha.
  rewrite forallb_forall in Hqs.
  assert (Hfactor : forall r, Z.prime r -> (r | N) -> prod qs + 1 <= r).
  { intros r Hr Hrdiv.
    pose proof (Z.prime_ge_2 _ Hr) as Hr2.
    assert (Hdiv : (prod qs | r - 1)).
    { apply pairwise_coprime_prod_divide; [assumption|].
      apply Forall_forall. intros q Hq.
      specialize (Hqs q Hq). apply andb_true_iff in Hqs.
      destruct Hqs as [Hq1 Hq2].
      apply Z.eqb_eq in Hq1, Hq2.
      rewrite Forall_forall in Hprimes.
      pose proof (Z.prime_ge_2 _ (Hprimes q Hq)).
      apply (pocklington_factor N a q r); auto.
      apply Z.mod_divide; [lia|assumption]. }
    apply Z.divide_pos_le in Hdiv; lia. }
  assert (Hprod : 0 < prod qs).
  { clear -Hprimes. induction Hprimes as [|q qs Hq _ IH]; cbn; [lia|].
    fold (prod qs). pose proof (Z.prime_ge_2 _ Hq). nia. }
  split; [assumption|].
  intros n Hn [k Hk].
  assert (Hk1 : 1 < k) by nia.
  destruct (Z_le_gt_dec n k) as [Hle|Hgt].
  - destruct (prime_divisor_exists n) as (r & Hr & Hrn); [lia|].
    assert (Hrle : r <= n) by (apply Z.divide_pos_le; [lia|assumption]).
    pose proof (Hfactor r Hr) as HF.
    assert (prod qs + 1 <= r).
    { apply HF. apply Z.divide_trans with n; [assumption|].
      exists k. lia. }
    nia.
  - destruct (prime_divisor_exists k) as (r & Hr & Hrk); [lia|].
    assert (Hrle : r <= k) by (apply Z.divide_pos_le; [lia|assumption]).
    assert (prod qs + 1 <= r).
    { apply Hfactor; [assumption|]. apply Z.divide_trans with k; [assumption|].
      exists n. lia. }
    nia.
Qed.

End Primality.

(** ** Euler's criterion modulo a prime [p = 3 (mod 4)] *)

Module Euler.
Section Prime3Mod4.

Variable p : Z.
Hypothesis p_prime : Z.prime p.
Hypothesis p_3_mod_4 : p mod 4 = 3.

Lemma p_gt_2 : 2 < p.
Proof.
  pose proof (Z.prime_ge_2 _ p_prime).
  destruct (Z.eq_dec p 2) as [E|E]; [|lia].
  rewrite E in p_3_mod_4. discriminate.
Qed.

Lemma half_odd : Z.Odd ((p - 1) / 2).
Proof.
  pose proof (Z.div_mod p 4 ltac:(lia)) as H. rewrite p_3_mod_4 in H.
  exists (p / 4).
  replace (p - 1) with ((2 * (p / 4) + 1) * 2) by lia.
  now rewrite Z.div_mul by lia.
Qed.

Lemma half_double : 2 * ((p - 1) / 2) = p - 1.
Proof.
  pose proof (Z.div_mod p 4 ltac:(lia)) as H. rewrite p_3_mod_4 in H.
  replace (p - 1) with ((2 * (p / 4) + 1) * 2) at 1 by lia.
  rewrite Z.div_mul by lia. lia.
Qed.

Lemma quarter_double : 2 * ((p + 1) / 4) = (p - 1) / 2 + 1.
Proof.
  pose proof (Z.div_mod p 4 ltac:(lia)) as H. rewrite p_3_mod_4 in H.
  replace (p + 1) with ((p / 4 + 1) * 4) by lia.
  replace (p - 1) with ((2 * (p / 4) + 1) * 2) by lia.
  rewrite !Z.div_mul by lia. lia.
Qed.

Lemma half_nonneg : 0 <= (p - 1) / 2.
Proof. pose proof p_gt_2. apply Z.div_pos; lia. Qed.

(** A unit raised to [(p-1)/2] is [1] or [-1]. *)
Lemma euler_plus_minus_one a :
  a mod p <> 0 ->
  a ^ ((p - 1) / 2) mod p = 1 \/ a ^ ((p - 1) / 2) mod p = p - 1.
Proof.
  intros Ha. pose proof p_gt_2 as Hp2. pose proof half_nonneg as Hh.
  set (x := a ^ ((p - 1) / 2) mod p).
  assert (Hx : 0 <= x < p) by (apply Z.mod_pos_bound; lia).
  assert (Hxx : (x * x) mod p = 1).
  { unfold x. rewrite mul_mod_both, <- Z.pow_add_r by assumption.
    replace ((p - 1) / 2 + (p - 1) / 2) with (p - 1)
      by (pose proof half_double; lia).
    now apply Z.fermat_nz. }
  assert (Hdiv : (p | (x - 1) * (x + 1))).
  { apply Z.mod_divide; [lia|].
    replace ((x - 1) * (x + 1)) with (x * x - 1) by ring.
    rewrite <- Zminus_mod_idemp_l, Hxx. reflexivity. }
  apply (Z.divide_prime_mul _ _ p p_prime) in Hdiv.
  destruct Hdiv as [[k Hk]|[k Hk]].
  - left. assert (k = 0) by nia. lia.
  - right. assert (k = 1) by nia. lia.
Qed.

(** Negation flips Euler's criterion on the units. *)
Lemma euler_negation_flips a :
  0 < a < p ->
  (exp a ((p - 1) / 2) p =? 1) = negb (exp (p - a) ((p - 1) / 2) p =? 1).
Proof.
  intros Ha. pose proof p_gt_2 as Hp2. rewrite !exp_spec.
  assert (Hanz : a mod p <> 0) by (rewrite Z.mod_small; lia).
  assert (Hneg : (p - a) ^ ((p - 1) / 2) mod p
                 = p - a ^ ((p - 1) / 2) mod p).
  { rewrite <- Z.mod_pow_l.
    replace (p - a) with (- a + 1 * p) by ring.
    rewrite Z.mod_add by lia.
    rewrite Z.mod_pow_l, Z.pow_opp_odd by apply half_odd.
    apply Z.mod_opp_l_nz; [lia|].
    destruct (euler_plus_minus_one a Hanz) as [E|E]; rewrite E; lia. }
  rewrite Hneg.
  destruct (euler_plus_minus_one a Hanz) as [E|E]; rewrite E.
  - rewrite Z.eqb_refl. symmetry. apply negb_true_iff, Z.eqb_neq. lia.
  - replace (p - (p - 1)) with 1 by lia. rewrite Z.eqb_refl.
    apply Z.eqb_neq. lia.
Qed.

(** When Euler's criterion holds for [a], the power [(p+1)/4] of [a] is a
    square root of [a]. *)
Lemma sqrt_candidate_squares a :
  0 <= a < p ->
  exp a ((p - 1) / 2) p = 1 ->
  exp (exp a ((p + 1) / 4) p) 2 p = a.
Proof.
  intros Ha He. pose proof p_gt_2 as Hp2. pose proof half_nonneg as Hh.
  rewrite !exp_spec in *.
  rewrite Z.mod_pow_l, <- Z.pow_mul_r by (try apply Z.div_pos; lia).
  rewrite Z.mul_comm, quarter_double, Z.pow_add_r, Z.pow_1_r by lia.
  rewrite <- mul_mod_left, He, Z.mul_1_l. apply Z.mod_small. lia.
Qed.

(** A non-zero square satisfies Euler's criterion. *)
Lemma square_satisfies_euler a y :
  (y * y) mod p = a -> a <> 0 -> exp a ((p - 1) / 2) p = 1.
Proof.
  intros Hy Ha. pose proof p_gt_2 as Hp2. pose proof half_nonneg as Hh.
  rewrite exp_spec, <- Hy, Z.mod_pow_l, <- Z.pow_2_r, <- Z.pow_mul_r by lia.
  rewrite half_double. apply Z.fermat_nz; [assumption|].
  intros H0. apply Ha. rewrite <- Hy, <- mul_mod_both, H0. reflexivity.
Qed.

End Prime3Mod4.
End Euler.

(** ** The secp256k1 base field *)

Module Field.

(** Modelled from the spec: the constant [fieldSize], the secp256k1
    base-field prime [2^256 - 2^32 - 977], is not among the sources. *)
Definition fieldSize : Z :=
  0xFFFFFFFFFFFFFFFFFFFFFFFFFFFFFFFFFFFFFFFFFFFFFFFFFFFFFFFEFFFFFC2F.

(** [sub(a, b)] on [big.Int]s, as the square-root test uses it. *)
Definition sub (a b : Z) : Z := a - b.

(** Modelled from the spec: [IsSquare] is not among the sources; the spec
    gives it as Euler's criterion, [exp(a, (p-1)/2, p) == 1]. *)
Definition isSquare (a : Z) : bool :=
  exp a ((fieldSize - 1) / 2) fieldSize =? 1.

(** Modelled from the spec: [SquareRoot] is not among the sources; the spec
    gives it as the candidate [exp(a, (p+1)/4, p)], returned whether or not
    [a] is a square. *)
Definition squareRoot (a : Z) : Z :=
  exp a ((fieldSize + 1) / 4) fieldSize.

(** *** [fieldSize] is prime

    [fieldSize - 1 = 2 * 3 * 7 * 13441 * Q]; the chain of certificates
    goes down from [Q] to primes small enough for trial division. *)

Definition Q : Z :=
  205115282021455665897114700593932402728804164701536103180137503955397371.

Definition Q' : Z := 255515944373312847190720520512484175977.

Lemma prime_96557 : Z.prime 96557.
Proof. apply Primality.small_prime_sound. vm_compute. reflexivity. Qed.

Lemma prime_7240687 : Z.prime 7240687.
Proof. apply Primality.small_prime_sound. vm_compute. reflexivity. Qed.

Lemma prime_107590001 : Z.prime 107590001.
Proof. apply Primality.small_prime_sound. vm_compute. reflexivity. Qed.

Lemma prime_Q' : Z.prime Q'.
Proof.
  apply (Primality.pocklington Q' 2 [107590001; 7240687; 96557]).
  - repeat constructor;
      [apply prime_107590001|apply prime_7240687|apply prime_96557].
  - vm_compute. reflexivity.
Qed.

Lemma prime_Q : Z.prime Q.
Proof.
  apply (Primality.pocklington Q 2 [Q']).
  - repeat constructor. apply prime_Q'.
  - vm_compute. reflexivity.
Qed.

Theorem fieldSize_prime : Z.prime fieldSize.
Proof.
  apply (Primality.pocklington fieldSize 2 [Q]).
  - repeat constructor. apply prime_Q.
  - vm_compute. reflexivity.
Qed.

Lemma fieldSize_3_mod_4 : fieldSize mod 4 = 3.
Proof. reflexivity. Qed.

(** *** Squares and square roots *)

Lemma isSquare_0 : isSquare 0 = false.
Proof. vm_compute. reflexivity. Qed.

Lemma isSquare_fieldSize : isSquare fieldSize = false.
Proof. vm_compute. reflexivity. Qed.

Example isSquare_1 : isSquare 1 = true.
Proof. vm_compute. reflexivity. Qed.

Example isSquare_3 : isSquare 3 = false.
Proof. vm_compute. reflexivity. Qed.

Example squareRoot_4 : squareRoot 4 = 2.
Proof. vm_compute. reflexivity. Qed.

(** C3, as stated, fails at [a = 0]: Euler's criterion rejects both [0]
    and [fieldSize - 0], so the two tests agree there. *)
Lemma isSquare_negation_fails_at_0 :
  ~ (forall a, 0 <= a < fieldSize ->
               isSquare a <> isSquare (sub fieldSize a)).
Proof.
  intros H. apply (H 0).
  - unfold fieldSize. lia.
  - unfold sub. rewrite Z.sub_0_r. now rewrite isSquare_0, isSquare_fieldSize.
Qed.

(** C3, amended: for every field element [a] other than zero,
    [0 < a < fieldSize], exactly one of [a] and [fieldSize - a] passes
    Euler's criterion. *)
Theorem isSquare_negation_flips (a : Z) :
  0 < a < fieldSize ->
  isSquare a <> isSquare (sub fieldSize a).
Proof.
  intros Ha. unfold isSquare, sub.
  rewrite (Euler.euler_negation_flips fieldSize fieldSize_prime
             fieldSize_3_mod_4 a Ha).
  now destruct (exp (fieldSize - a) ((fieldSize - 1) / 2) fieldSize =? 1).
Qed.

(** The amended C3 at [a = 1]. *)
Lemma isSquare_negation_flips_witness :
  isSquare 1 <> isSquare (sub fieldSize 1).
Proof.
  apply (isSquare_negation_flips 1). unfold fieldSize. lia.
Defined.

Lemma squareRoot_eq a :
  squareRoot a = exp a ((fieldSize + 1) / 4) fieldSize.
Proof. reflexivity. Qed.

Lemma isSquare_eq a :
  isSquare a = (exp a ((fieldSize - 1) / 2) fieldSize =? 1).
Proof. reflexivity. Qed.

(** C7. [squareRoot a] is the candidate [exp(a, (p+1)/4, p)] for every
    field element, square or not; when [a] passes [isSquare], and likewise
    when [a] is the square of some [y] modulo [fieldSize], the candidate
    squared modulo [fieldSize] is [a]. *)
Theorem squareRoot_candidate (a : Z) :
  0 <= a < fieldSize ->
  squareRoot a = exp a ((fieldSize + 1) / 4) fieldSize
  /\ squareRoot a = a ^ ((fieldSize + 1) / 4) mod fieldSize
  /\ (isSquare a = true -> exp (squareRoot a) 2 fieldSize = a)
  /\ (forall y, (y * y) mod fieldSize = a ->
                exp (squareRoot a) 2 fieldSize = a).
Proof.
  intros Ha.
  assert (Hsq : isSquare a = true -> exp (squareRoot a) 2 fieldSize = a).
  { intros H. rewrite isSquare_eq in H. apply Z.eqb_eq in H.
    rewrite squareRoot_eq.
    exact (Euler.sqrt_candidate_squares fieldSize fieldSize_prime
             fieldSize_3_mod_4 a Ha H). }
  split; [apply squareRoot_eq|].
  split; [rewrite squareRoot_eq; apply exp_spec|].
  split; [exact Hsq|].
  intros y Hy. destruct (Z.eq_dec a 0) as [Hz|Hnz].
  - rewrite Hz. vm_compute. reflexivity.
  - apply Hsq. rewrite isSquare_eq. apply Z.eqb_eq.
    exact (Euler.square_satisfies_euler fieldSize fieldSize_prime
             fieldSize_3_mod_4 a y Hy Hnz).
Qed.

(** C7 at [a = 4 = 2 * 2]. *)
Lemma squareRoot_candidate_witness :
  squareRoot 4 = exp 4 ((fieldSize + 1) / 4) fieldSize
  /\ exp (squareRoot 4) 2 fieldSize = 4.
Proof.
  assert (H4 : 0 <= 4 < fieldSize) by (unfold fieldSize; lia).
  destruct (squareRoot_candidate 4 H4) as (H1 & _ & _ & H3).
  split; [exact H1|]. apply (H3 2). reflexivity.
Defined.

End Field.

(** * More of [core/store/orm/orm.go] *)

(** ** [AllSyncEvents] *)

Module SyncEvents.

(** The columns of [sync_events] that the query orders by, and the
    payload. *)
Record SyncEvent : Type := mkSyncEvent {
  ID : Z;
  CreatedAt : Z;
  Body : string
}.

(** [ORDER BY id, created_at asc]: by id, then by stamp; rows equal in
    both keep the order in which they are read.  The id is the primary
    key: in a table with distinct ids the order is fixed by the ids. *)
Definition precedes (a b : SyncEvent) : bool :=
  (ID a <? ID b) || ((ID a =? ID b) && (CreatedAt a <=? CreatedAt b)).

Fixpoint insert_event (e : SyncEvent) (l : list SyncEvent) : list SyncEvent :=
  match l with
  | [] => [e]
  | x :: l' => if precedes e x then e :: l else x :: insert_event e l'
  end.

Definition order_by_id_created_at (l : list SyncEvent) : list SyncEvent :=
  fold_right insert_event [] l.

(** The rows that [orm.db.Limit(limit).Offset(offset).
     Order("id, created_at asc").Find(&events)] selects from a table. *)
Definition find_page (table : list SyncEvent) (offset limit : Z)
  : list SyncEvent :=
  firstn (Z.to_nat limit)
         (skipn (Z.to_nat offset) (order_by_id_created_at table)).

Section WithCallback.

(** The caller's [cb] is a closure.  [St] is everything it can reach and
    change, the database included: [sync_events s] is the table in the
    state [s], and [query_error s] the error, if any, of a query made in
    that state.  The closure handed to [Batch] queries anew for every
    page, in the state the calls of [cb] have left. *)
Context {St : Type}.
Variable sync_events : St -> list SyncEvent.
Variable query_error : St -> error.
Variable cb : St -> SyncEvent -> St * error.

(** [for _, event := range events { err = cb(&event); if err != nil
    { return 0, err } }]: the state after the loop and the error that
    ended it, if any. *)
Fixpoint each (s : St) (events : list SyncEvent) : St * error :=
  match events with
  | [] => (s, None)
  | event :: rest =>
      let '(s', err) := cb s event in
      match err with
      | Some _ => (s', err)
      | None => each s' rest
      end
  end.

(** The closure handed to [Batch]. *)
Definition batch_cb (s : St) (offset limit : Z) : St * (Z * error) :=
  let err := query_error s in
  match err with
  | Some _ => (s, (0, err))
  | None =>
      let events := find_page (sync_events s) offset limit in
      let '(s', err) := each s events in
      match err with
      | Some e => (s', (0, Some e))
      | None => (s', (Z.of_nat (List.length events), None))
      end
  end.

(** [func (orm *ORM) AllSyncEvents(cb func( *models.SyncEvent) error) error] *)
Definition AllSyncEvents (fuel : nat) (s : St) : Batch.run (St := St) :=
  Batch.Batch batch_cb fuel JobRuns.BatchSize s.


(** What holds of a callback that leaves the table alone and of a database
    that answers. *)
Hypothesis cb_keeps_table :
  forall s e, sync_events (fst (cb s e)) = sync_events s.
Hypothesis queries_succeed : forall s, query_error s = None.



End WithCallback.

(** The order that [ORDER BY id, created_at asc] asks for. *)
Definition before (a b : SyncEvent) : Prop :=
  ID a < ID b \/ (ID a = ID b /\ CreatedAt a <= CreatedAt b).









(** A caller that records the ids it is given and fails on the id [bad];
    its state is the table, which it leaves alone, and the record. *)
Definition recording_cb (bad : Z) (s : list SyncEvent * list Z)
    (e : SyncEvent) : (list SyncEvent * list Z) * error :=
  ((fst s, snd s ++ [ID e]),
   if ID e =? bad then errors_New "sync failed" else None).

(** A caller that deletes each event it has handled. *)
Definition deleting_cb (s : list SyncEvent * list Z) (e : SyncEvent)
  : (list SyncEvent * list Z) * error :=
  ((filter (fun x => negb (ID x =? ID e)) (fst s), snd s ++ [ID e]), None).

Definition answers {St : Type} (s : St) : error := None.

Definition numbered_events (n : nat) : list SyncEvent :=
  map (fun i => mkSyncEvent (Z.of_nat i) 0 "") (seq 0 n).

Example sync_2500_events_all_visited :
  let r := AllSyncEvents fst answers (recording_cb (-1)) 5
             (numbered_events 2500, []) in
  snd (Batch.final r) = map Z.of_nat (seq 0 2500)
  /\ Batch.calls r = [(0, 1000); (1000, 1000); (2000, 1000)]
  /\ Batch.result r = Some None.
Proof. vm_compute. repeat split. Qed.

Example sync_stops_at_failing_event :
  let r := AllSyncEvents fst answers (recording_cb 1200) 5
             (numbered_events 2500, []) in
  snd (Batch.final r) = map Z.of_nat (seq 0 1201)
  /\ Batch.calls r = [(0, 1000); (1000, 1000)]
  /\ Batch.result r = Some (errors_New "sync failed").
Proof. vm_compute. repeat split. Qed.

(** Paging by offset over a table that shrinks: the second page starts
    1000 rows into what is left, so the events 1000 to 1999 are never
    handed over. *)
Example sync_skips_events_when_handled_ones_are_deleted :
  let r := AllSyncEvents fst answers deleting_cb 5
             (numbered_events 2000, []) in
  snd (Batch.final r) = map Z.of_nat (seq 0 1000)
  /\ List.length (fst (Batch.final r)) = 1000%nat
  /\ Batch.calls r = [(0, 1000); (1000, 1000)]
  /\ Batch.result r = Some None.
Proof. vm_compute. repeat split. Qed.



End SyncEvents.

(** ** [Jobs] *)

Module Jobs.

(** A job spec as far as [Jobs] looks at it: its id and the soft-deletion
    stamp ([DeletedAt.Valid] is [DeletedAt <> None]). *)
Record JobSpec : Type := mkJobSpec {
  ID : string;
  DeletedAt : option Z
}.

Definition deleted (j : JobSpec) : bool :=
  match DeletedAt j with
  | Some _ => true
  | None => false
  end.

Section WithDatabase.

(** The two queries of the closure, answered by the database in whatever
    way it does: [pluck_ids initrTypes offset limit] is
    [scope.Table("job_specs").Pluck("job_specs.id", &ids)] for the scope
    built from [offset], [limit] and [initrTypes], and [find_jobs ids] is
    [orm.preloadJobs().Unscoped().Find(&jobs, "id IN (?)", ids)].  Each
    gives its rows and its error. *)
Variable pluck_ids : list string -> Z -> Z -> list string * error.
Variable find_jobs : list string -> list JobSpec * error.

(** The caller's [cb] with the state it captures; [false] asks to stop. *)
Context {St : Type}.
Variable cb : St -> JobSpec -> St * bool.

(** [for _, j := range jobs { temp := j; if temp.DeletedAt.Valid
    { continue }; if !cb(&temp) { return 0, nil } }]: the state after the
    loop, and whether it ran to the end. *)
Fixpoint each (s : St) (jobs : list JobSpec) : St * bool :=
  match jobs with
  | [] => (s, true)
  | j :: rest =>
      if deleted j then each s rest
      else
        let '(s', go_on) := cb s j in
        if go_on then each s' rest else (s', false)
  end.

(** The closure handed to [Batch]. *)
Definition batch_cb (initrTypes : list string) (s : St) (offset limit : Z)
  : St * (Z * error) :=
  let '(ids, err) := pluck_ids initrTypes offset limit in
  match err with
  | Some e => (s, (0, Some e))
  | None =>
      if (List.length ids =? 0)%nat then (s, (0, None))
      else
        let '(jobs, err) := find_jobs ids in
        match err with
        | Some e => (s, (0, Some e))
        | None =>
            let '(s', finished) := each s jobs in
            if finished
            then (s', (Z.of_nat (List.length jobs), None))
            else (s', (0, None))
        end
  end.

(** [func (orm *ORM) Jobs(cb func( *models.JobSpec) bool,
     initrTypes ...string) error] *)
Definition Jobs (fuel : nat) (initrTypes : list string) (s : St)
  : Batch.run (St := St) :=
  Batch.Batch (batch_cb initrTypes) fuel JobRuns.BatchSize s.

End WithDatabase.

(** A callback together with the record of its invocations: each job it
    was given and the answer it gave. *)
Definition traced {St : Type} (cb : St -> JobSpec -> St * bool)
    (s : St * list (JobSpec * bool)) (j : JobSpec)
  : (St * list (JobSpec * bool)) * bool :=
  let '(s', go_on) := cb (fst s) j in
  ((s', snd s ++ [(j, go_on)]), go_on).

(** Every recorded job is live and was answered with [true]. *)
Definition all_live_and_continued (tr : list (JobSpec * bool)) : Prop :=
  Forall (fun x => deleted (fst x) = false /\ snd x = true) tr.

(** The record ends with the one job that was answered with [false]. *)
Definition stopped_at_last (tr : list (JobSpec * bool)) : Prop :=
  exists pre j,
    tr = pre ++ [(j, false)] /\ all_live_and_continued pre
    /\ deleted j = false.

Lemma each_traced {St : Type} (cb : St -> JobSpec -> St * bool) jobs :
  forall s tr,
  all_live_and_continued tr ->
  let r := each (traced cb) (s, tr) jobs in
  (snd r = true -> all_live_and_continued (snd (fst r)))
  /\ (snd r = false -> stopped_at_last (snd (fst r))).
Proof.
  induction jobs as [|j jobs IH]; intros s tr Htr; cbn [each].
  - cbn. split; [auto|discriminate].
  - destruct (deleted j) eqn:Hdel; [apply IH; assumption|].
    assert (Ht : traced cb (s, tr) j
                 = ((fst (cb s j), tr ++ [(j, snd (cb s j))]), snd (cb s j))).
    { unfold traced. cbn [fst snd]. now destruct (cb s j). }
    rewrite Ht. destruct (cb s j) as [s' go_on]. cbn [fst snd].
    destruct go_on.
    + apply IH. apply Forall_app. split; [assumption|].
      constructor; [|constructor]. cbn. auto.
    + cbn [fst snd]. split; [discriminate|]. intros _.
      exists tr, j. auto.
Qed.

Lemma batch_cb_traced {St : Type}
    (pluck_ids : list string -> Z -> Z -> list string * error)
    (find_jobs : list string -> list JobSpec * error)
    (cb : St -> JobSpec -> St * bool) initrTypes offset limit s tr :
  all_live_and_continued tr ->
  let r := batch_cb pluck_ids find_jobs (traced cb) initrTypes (s, tr)
             offset limit in
  all_live_and_continued (snd (fst r))
  \/ (stopped_at_last (snd (fst r)) /\ snd r = (0, None)).
Proof.
  intros Htr. unfold batch_cb.
  destruct (pluck_ids initrTypes offset limit) as [ids [e|]];
    [left; exact Htr|].
  destruct (List.length ids =? 0)%nat; [left; exact Htr|].
  destruct (find_jobs ids) as [jobs [e|]]; [left; exact Htr|].
  pose proof (each_traced cb jobs s tr Htr) as Heach. cbv zeta in Heach.
  destruct (each (traced cb) (s, tr) jobs) as [[s' tr'] finished].
  cbn [fst snd] in Heach. destruct Heach as [Hfin Hstop].
  destruct finished; cbn [fst snd].
  - left. now apply Hfin.
  - right. split; [now apply Hstop|reflexivity].
Qed.

Lemma loop_traced {St : Type}
    (pluck_ids : list string -> Z -> Z -> list string * error)
    (find_jobs : list string -> list JobSpec * error)
    (cb : St -> JobSpec -> St * bool) initrTypes fuel :
  forall offset s tr done,
  all_live_and_continued tr ->
  let r := Batch.loop (batch_cb pluck_ids find_jobs (traced cb) initrTypes)
             fuel offset 1000 (s, tr) done in
  all_live_and_continued (snd (Batch.final r))
  \/ (stopped_at_last (snd (Batch.final r))
      /\ Batch.result r = Some None).
Proof.
  induction fuel as [|fuel IH]; intros offset s tr done Htr;
    cbn [Batch.loop].
  - left. exact Htr.
  - pose proof (batch_cb_traced pluck_ids find_jobs cb initrTypes offset 1000
                  s tr Htr) as Hcb.
    cbv zeta in Hcb.
    destruct (batch_cb pluck_ids find_jobs (traced cb) initrTypes (s, tr)
                offset 1000) as [[s' tr'] [count err]].
    cbn [fst snd] in Hcb.
    destruct Hcb as [Hlive|[Hstop Hres]].
    + destruct err as [e|]; [left; exact Hlive|].
      destruct (count <? 1000); [left; exact Hlive|].
      apply IH. exact Hlive.
    + inversion Hres; subst count err.
      change (0 <? 1000) with true. cbn iota. right.
      split; [exact Hstop|reflexivity].
Qed.

Lemma continued_no_false (tr : list (JobSpec * bool)) pre j post :
  all_live_and_continued tr -> tr <> pre ++ (j, false) :: post.
Proof.
  intros H E. subst tr. apply Forall_app in H. destruct H as [_ H].
  inversion H as [|? ? [_ Hx] _]; subst. discriminate.
Qed.

(** A database holding [table]: ids are plucked in storage order, and
    the second query finds the rows with those ids. *)
Definition table_pluck (table : list JobSpec) (initrTypes : list string)
    (offset limit : Z) : list string * error :=
  (map ID (firstn (Z.to_nat limit) (skipn (Z.to_nat offset) table)), None).

Definition table_find (table : list JobSpec) (ids : list string)
  : list JobSpec * error :=
  (filter (fun j => existsb (String.eqb (ID j)) ids) table, None).

(** A callback that counts the jobs it sees and stops at the job [stop]. *)
Definition counting_cb (stop : string) (n : nat) (j : JobSpec) : nat * bool :=
  (S n, negb (String.eqb (ID j) stop)).

Example jobs_skips_deleted_and_stops_at_c :
  let table := [mkJobSpec "a" None; mkJobSpec "b" (Some 7);
                mkJobSpec "c" None; mkJobSpec "d" None] in
  let r := Jobs (table_pluck table) (table_find table)
             (traced (counting_cb "c")) 5 [] (O, []) in
  Batch.final r
  = (2%nat, [(mkJobSpec "a" None, true); (mkJobSpec "c" None, false)])
  /\ Batch.result r = Some None.
Proof. vm_compute. split; reflexivity. Qed.

(** X2. Whatever the database answers, [Jobs] never hands a soft-deleted
    job to the callback, and once the callback has answered [false] it is
    not invoked again and [Jobs] returns nil. *)
Theorem Jobs_skips_deleted_and_stops_on_false {St : Type}
    (pluck_ids : list string -> Z -> Z -> list string * error)
    (find_jobs : list string -> list JobSpec * error)
    (cb : St -> JobSpec -> St * bool)
    (fuel : nat) (initrTypes : list string) (s : St) :
  let r := Jobs pluck_ids find_jobs (traced cb) fuel initrTypes (s, []) in
  let invocations := snd (Batch.final r) in
  Forall (fun x => DeletedAt (fst x) = None) invocations
  /\ (forall pre j post,
        invocations = pre ++ (j, false) :: post ->
        post = [] /\ Batch.result r = Some None).
Proof.
  intros r invocations.
  assert (Hlive : forall j, deleted j = false -> DeletedAt j = None).
  { intros j. unfold deleted. now destruct (DeletedAt j). }
  pose proof (loop_traced pluck_ids find_jobs cb initrTypes fuel 0 s [] []
                (Forall_nil _)) as H.
  cbv zeta in H. fold (Jobs pluck_ids find_jobs (traced cb) fuel initrTypes
                         (s, [])) in H.
  change (Batch.loop (batch_cb pluck_ids find_jobs (traced cb) initrTypes)
            fuel 0 1000 (s, []) [])
    with r in H.
  fold invocations in H.
  destruct H as [Hall|[(pre0 & j0 & Htr & Hpre & Hj0) Hres]].
  - split.
    + eapply Forall_impl; [|exact Hall]. intros x [Hx _]. now apply Hlive.
    + intros pre j post E. exfalso.
      exact (continued_no_false invocations pre j post Hall E).
  - split.
    + rewrite Htr. apply Forall_app. split.
      * eapply Forall_impl; [|exact Hpre]. intros x [Hx _]. now apply Hlive.
      * constructor; [now apply Hlive|constructor].
    + intros pre j post E. split; [|exact Hres].
      destruct post as [|p post]; [reflexivity|]. exfalso.
      destruct (exists_last (l := p :: post)) as (post' & z & Hz);
        [discriminate|].
      rewrite Htr, Hz in E.
      change (pre ++ (j, false) :: post' ++ [z])
        with (pre ++ ((j, false) :: post') ++ [z]) in E.
      rewrite app_assoc in E. apply app_inj_tail in E. destruct E as [E _].
      exact (continued_no_false pre0 pre j post' Hpre E).
Qed.

End Jobs.

(** ** [constantTimeEmailCompare] *)

Module Email.

Definition byte : Type := Byte.byte.

(** A Go string and a [[]byte] are both sequences of bytes. *)
Definition bytes : Type := list byte.

Definition constantTimeEmailLength : nat := 256.

(** Modelled from the spec: [utils.MaxInt] is not among the sources; it
    returns the greatest of its arguments. *)
Definition MaxInt (a b c : nat) : nat := Nat.max a (Nat.max b c).

(** [make([]byte, n)] *)
Definition make (n : nat) : bytes := repeat Byte.x00 n.

(** [copy(dst, src)]: the first [min(len(dst), len(src))] bytes of [dst]
    are overwritten; the result is [dst] afterwards. *)
Definition copy (dst src : bytes) : bytes :=
  firstn (List.length dst) src ++ skipn (List.length src) dst.

(** The loop [v |= x[i] ^ y[i]] of [subtle.ConstantTimeCompare]. *)
Fixpoint or_of_xors (v : N) (x y : bytes) : N :=
  match x, y with
  | a :: x', b :: y' =>
      or_of_xors (N.lor v (N.lxor (Byte.to_N a) (Byte.to_N b))) x' y'
  | _, _ => v
  end.

(** [subtle.ConstantTimeCompare(x, y)]: 1 when the slices have equal
    contents, 0 otherwise, and 0 at once when the lengths differ. *)
Definition ConstantTimeCompare (x y : bytes) : Z :=
  if (List.length x =? List.length y)%nat
  then if (or_of_xors 0 x y =? 0)%N then 1 else 0
  else 0.

(** [func constantTimeEmailCompare(left, right string) bool] *)
Definition constantTimeEmailCompare (left right : bytes) : bool :=
  let length :=
    MaxInt constantTimeEmailLength (List.length left) (List.length right) in
  let leftBytes := make length in
  let rightBytes := make length in
  let leftBytes := copy leftBytes left in
  let rightBytes := copy rightBytes right in
  ConstantTimeCompare leftBytes rightBytes =? 1.

Lemma to_N_inj (a b : byte) : Byte.to_N a = Byte.to_N b -> a = b.
Proof.
  intros H. pose proof (Byte.of_to_N a) as Ha.
  rewrite H, Byte.of_to_N in Ha. now inversion Ha.
Qed.

Lemma or_of_xors_zero x : forall y v,
  List.length x = List.length y ->
  or_of_xors v x y = 0%N <-> v = 0%N /\ x = y.
Proof.
  induction x as [|a x IH]; intros [|b y] v Hlen; try discriminate;
    cbn [or_of_xors].
  - intuition.
  - injection Hlen as Hlen. rewrite (IH y _ Hlen), N.lor_eq_0_iff. split.
    + intros [[Hv Hab] Hxy]. apply N.lxor_eq, to_N_inj in Hab.
      subst. auto.
    + intros [Hv Hxy]. injection Hxy as -> ->.
      now rewrite N.lxor_nilpotent.
Qed.

Lemma ConstantTimeCompare_eq x y : ConstantTimeCompare x y = 1 <-> x = y.
Proof.
  unfold ConstantTimeCompare.
  destruct (List.length x =? List.length y)%nat eqn:Hlen.
  - apply Nat.eqb_eq in Hlen.
    destruct (or_of_xors 0 x y =? 0)%N eqn:Hv.
    + apply N.eqb_eq in Hv. apply or_of_xors_zero in Hv; tauto.
    + apply N.eqb_neq in Hv. split; [discriminate|].
      intros E. exfalso. apply Hv. apply or_of_xors_zero; auto.
  - apply Nat.eqb_neq in Hlen. split; [discriminate|].
    intros E. subst. contradiction.
Qed.

Lemma copy_into_zeros (src : bytes) n :
  (List.length src <= n)%nat ->
  copy (make n) src = src ++ repeat Byte.x00 (n - List.length src).
Proof.
  intros H. unfold copy, make. rewrite repeat_length.
  rewrite firstn_all2 by assumption. f_equal.
  replace n with (List.length src + (n - List.length src))%nat at 1 by lia.
  rewrite repeat_app, skipn_app, repeat_length, Nat.sub_diag.
  rewrite skipn_all2 by (rewrite repeat_length; lia). reflexivity.
Qed.

Lemma padded_equal_longer (l r : bytes) a b :
  (b <= a)%nat ->
  l ++ repeat Byte.x00 a = r ++ repeat Byte.x00 b ->
  r = l ++ repeat Byte.x00 (a - b).
Proof.
  intros Hba H.
  replace a with ((a - b) + b)%nat in H by lia.
  rewrite repeat_app, app_assoc in H.
  apply app_inv_tail in H. now symmetry.
Qed.

Definition of_string (s : string) : bytes := list_byte_of_string s.

Example same_email_accepted :
  constantTimeEmailCompare (of_string "api@example.com")
                           (of_string "api@example.com") = true.
Proof. vm_compute. reflexivity. Qed.

Example other_email_rejected :
  constantTimeEmailCompare (of_string "api@example.com")
                           (of_string "apj@example.com") = false.
Proof. vm_compute. reflexivity. Qed.

Example trailing_zero_byte_accepted :
  constantTimeEmailCompare
    (of_string "api@example.com")
    (of_string "api@example.com" ++ [Byte.x00]) = true.
Proof. vm_compute. reflexivity. Qed.

(** X3. [constantTimeEmailCompare] accepts exactly the pairs of strings
    that are equal up to trailing zero bytes: both are padded with zero
    bytes to a common length before the comparison, so the padding cannot
    be told from zero bytes the strings end with.  On strings that hold no
    zero byte it is equality. *)
Theorem constantTimeEmailCompare_up_to_trailing_zeros (left right : bytes) :
  (constantTimeEmailCompare left right = true <->
   exists k, right = left ++ repeat Byte.x00 k
             \/ left = right ++ repeat Byte.x00 k)
  /\ (~ In Byte.x00 left -> ~ In Byte.x00 right ->
      (constantTimeEmailCompare left right = true <-> left = right)).
Proof.
  assert (Hiff : constantTimeEmailCompare left right = true <->
                 exists k, right = left ++ repeat Byte.x00 k
                           \/ left = right ++ repeat Byte.x00 k).
  { unfold constantTimeEmailCompare. cbv zeta.
    set (n := MaxInt constantTimeEmailLength (List.length left)
                (List.length right)).
    assert (Hl : (List.length left <= n)%nat) by (unfold n, MaxInt; lia).
    assert (Hr : (List.length right <= n)%nat) by (unfold n, MaxInt; lia).
    rewrite Z.eqb_eq, ConstantTimeCompare_eq, !copy_into_zeros by assumption.
    split.
    - intros H.
      destruct (Nat.le_ge_cases (n - List.length right) (n - List.length left))
        as [Hle|Hle].
      + eexists. left. exact (padded_equal_longer _ _ _ _ Hle H).
      + eexists. right. symmetry in H.
        exact (padded_equal_longer _ _ _ _ Hle H).
    - intros [k [E|E]].
      + assert (Hk : (List.length left + k <= n)%nat).
        { rewrite E, length_app, repeat_length in Hr. exact Hr. }
        rewrite E at 1. rewrite <- app_assoc, <- repeat_app.
        do 2 f_equal. rewrite E, length_app, repeat_length. lia.
      + assert (Hk : (List.length right + k <= n)%nat).
        { rewrite E, length_app, repeat_length in Hl. exact Hl. }
        rewrite E at 1. rewrite <- app_assoc, <- repeat_app.
        do 2 f_equal. rewrite E, length_app, repeat_length. lia. }
  split; [exact Hiff|].
  intros Hl Hr. rewrite Hiff. split.
  - intros [k [E|E]]; destruct k as [|k];
      cbn [repeat] in E; rewrite ?app_nil_r in E; auto.
    + exfalso. apply Hr. rewrite E. apply in_or_app. right. now left.
    + exfalso. apply Hl. rewrite E. apply in_or_app. right. now left.
  - intros ->. exists O. left. cbn [repeat]. now rewrite app_nil_r.
Qed.

End Email.

(** ** [FindBridgesByNames] *)

Module Bridges.

(** A row of [bridge_types]; [Name] is the primary key. *)
Record BridgeType : Type := mkBridgeType {
  Name : string;
  URL : string
}.

Definition name_in (names : list string) (b : BridgeType) : bool :=
  existsb (String.eqb (Name b)) names.

(** [orm.db.Where("name IN (?)", names).Find(&bt)]: the rows whose name is
    among [names], and the error of the query. *)
Definition where_name_in (table : list BridgeType) (query_error : error)
    (names : list string) : list BridgeType * error :=
  (filter (name_in names) table, query_error).

(** [func (orm *ORM) FindBridgesByNames(names []string)
     ([]models.BridgeType, error)] *)
Definition FindBridgesByNames (table : list BridgeType) (query_error : error)
    (names : list string) : list BridgeType * error :=
  let '(bt, err) := where_name_in table query_error names in
  match err with
  | Some e => ([], Some e)
  | None =>
      if negb (List.length bt =? List.length names)%nat
      then ([], errors_New "bridge names don't exist or duplicates present")
      else (bt, None)
  end.





Example find_two_bridges :
  FindBridgesByNames
    [mkBridgeType "a" "http://a"; mkBridgeType "b" "http://b";
     mkBridgeType "c" "http://c"] None ["c"; "a"]%string
  = ([mkBridgeType "a" "http://a"; mkBridgeType "c" "http://c"], None).
Proof. reflexivity. Qed.

Example find_duplicate_name_fails :
  FindBridgesByNames
    [mkBridgeType "a" "http://a"; mkBridgeType "b" "http://b"] None
    ["a"; "a"]%string
  = ([], errors_New "bridge names don't exist or duplicates present").
Proof. reflexivity. Qed.



End Bridges.

(** ** [convenientTransaction] and [MarkRan] *)

Module Transaction.

(** Whether the database lets a transaction begin and commit. *)
Record health : Type := mkHealth {
  begin_error : error;
  commit_error : error
}.

Definition healthy : health := mkHealth None None.

Section WithDatabase.

(** [DB] is the committed content of the database.  A transaction works
    on its own view of it: [callback] takes the view and gives the view
    after its statements and its error.  [Commit] makes the view the
    content; [Rollback], deferred, drops it (and does nothing after a
    commit). *)
Variable DB : Type.

(** [func (orm *ORM) convenientTransaction(callback func( *gorm.DB) error)
     error] *)
Definition convenientTransaction (h : health)
    (callback : DB -> DB * error) (db : DB) : DB * error :=
  match begin_error h with
  | Some e => (db, Some e)
  | None =>
      let '(view, err) := callback db in
      match err with
      | Some e => (db, Some e)
      | None =>
          match commit_error h with
          | Some e => (db, Some e)
          | None => (view, None)
          end
      end
  end.

Lemma convenientTransaction_error_keeps h callback db :
  snd (convenientTransaction h callback db) <> None ->
  fst (convenientTransaction h callback db) = db.
Proof.
  unfold convenientTransaction.
  destruct (begin_error h); [reflexivity|].
  destruct (callback db) as [view [e|]]; [reflexivity|].
  destruct (commit_error h); [reflexivity|]. cbn. congruence.
Qed.

Lemma convenientTransaction_ok h callback db :
  snd (convenientTransaction h callback db) = None ->
  convenientTransaction h callback db = (fst (callback db), None)
  /\ snd (callback db) = None.
Proof.
  unfold convenientTransaction.
  destruct (begin_error h); [discriminate|].
  destruct (callback db) as [view [e|]]; [discriminate|].
  destruct (commit_error h); [discriminate|]. auto.
Qed.

End WithDatabase.

Arguments convenientTransaction {DB} _ _ _.

End Transaction.

Module Initiators.

(** A live row of [initiators]. *)
Record Initiator : Type := mkInitiator {
  ID : Z;
  JobSpecID : string;
  Ran : bool
}.

Definition has_id (id : Z) (r : Initiator) : bool := ID r =? id.

(** [dbtx.Select("ran").First(&newi, "ID = ?", i.ID)] *)
Definition first_by_id (table : list Initiator) (id : Z) : option Initiator :=
  find (has_id id) table.

(** [dbtx.Model(i).UpdateColumn("ran", ran)], taken to succeed. *)
Definition update_ran (table : list Initiator) (id : Z) (ran : bool)
  : list Initiator :=
  map (fun r => if has_id id r then mkInitiator (ID r) (JobSpecID r) ran
                else r) table.

(** [fmt.Errorf("Initiator %v for job spec %s has already been run",
     i.ID, i.JobSpecID.String())] *)
Definition already_run (i : Initiator) : error :=
  errors_New ("Initiator "
              ++ NilEmpty.string_of_uint (N.to_uint (Z.to_N (ID i)))
              ++ " for job spec " ++ JobSpecID i
              ++ " has already been run")%string.

Definition ErrRecordNotFound : error := errors_New "record not found".

(** [func (orm *ORM) MarkRan(i *models.Initiator, ran bool) error] *)
Definition MarkRan (h : Transaction.health) (table : list Initiator)
    (i : Initiator) (ran : bool) : list Initiator * error :=
  Transaction.convenientTransaction h
    (fun dbtx =>
       match first_by_id dbtx (ID i) with
       | None => (dbtx, ErrRecordNotFound)
       | Some newi =>
           if ran && Ran newi
           then (dbtx, already_run i)
           else (update_ran dbtx (ID i) ran, None)
       end)
    table.

Lemma first_by_id_after_update table id ran r :
  first_by_id table id = Some r ->
  exists r', first_by_id (update_ran table id ran) id = Some r'
             /\ Ran r' = ran.
Proof.
  unfold first_by_id, update_ran.
  induction table as [|x table IH]; cbn [find map]; [discriminate|].
  destruct (has_id id x) eqn:Hx.
  - intros _. unfold has_id in *. cbn [ID]. rewrite Hx.
    eexists. split; reflexivity.
  - rewrite Hx. exact IH.
Qed.

Lemma update_ran_others table id ran :
  filter (fun r => negb (has_id id r)) (update_ran table id ran)
  = filter (fun r => negb (has_id id r)) table.
Proof.
  unfold update_ran. induction table as [|x table IH]; [reflexivity|].
  cbn [map filter]. destruct (has_id id x) eqn:Hx.
  - unfold has_id in *. cbn [ID]. rewrite Hx. exact IH.
  - rewrite Hx. cbn [negb]. now rewrite IH.
Qed.

Example mark_ran_twice :
  let i := mkInitiator 7 "job" false in
  let r1 := MarkRan Transaction.healthy [mkInitiator 3 "job" false; i] i true in
  let r2 := MarkRan Transaction.healthy (fst r1) i true in
  r1 = ([mkInitiator 3 "job" false; mkInitiator 7 "job" true], None)
  /\ r2 = (fst r1,
           errors_New "Initiator 7 for job spec job has already been run").
Proof. vm_compute. split; reflexivity. Qed.

(** X5. An initiator is marked as ran at most once: after [MarkRan(i,
    true)] has succeeded, a second [MarkRan(i, true)] fails, in whatever
    health the database is, and changes nothing.  A failing [MarkRan]
    leaves the table as it was; no [MarkRan] touches the rows of other
    initiators; and a successful [MarkRan(i, false)] lets the initiator be
    marked again. *)
Theorem MarkRan_only_once (h1 h2 : Transaction.health)
    (table : list Initiator) (i : Initiator) :
  let r1 := MarkRan h1 table i true in
  let r2 := MarkRan h2 (fst r1) i true in
  (snd r1 = None -> snd r2 <> None /\ fst r2 = fst r1)
  /\ (forall ran, snd (MarkRan h1 table i ran) <> None ->
                  fst (MarkRan h1 table i ran) = table)
  /\ (forall ran,
        filter (fun r => negb (has_id (ID i) r))
               (fst (MarkRan h1 table i ran))
        = filter (fun r => negb (has_id (ID i) r)) table)
  /\ (snd (MarkRan h1 table i false) = None ->
      snd (MarkRan Transaction.healthy (fst (MarkRan h1 table i false))
             i true) = None).
Proof.
  intros r1 r2.
  assert (Hkeep : forall ran, snd (MarkRan h1 table i ran) <> None ->
                              fst (MarkRan h1 table i ran) = table).
  { intros ran. apply Transaction.convenientTransaction_error_keeps. }
  assert (Hok : forall h t ran,
             snd (MarkRan h t i ran) = None ->
             exists r, first_by_id t (ID i) = Some r
                       /\ fst (MarkRan h t i ran) = update_ran t (ID i) ran).
  { intros h t ran H. unfold MarkRan in *.
    apply Transaction.convenientTransaction_ok in H. destruct H as [H Hcb].
    rewrite H. cbn [fst].
    destruct (first_by_id t (ID i)) as [r|]; [|discriminate].
    exists r. split; [reflexivity|].
    destruct (ran && Ran r); [discriminate|reflexivity]. }
  assert (Hsecond : forall h t r,
             first_by_id t (ID i) = Some r -> Ran r = true ->
             snd (MarkRan h t i true) <> None).
  { intros h t r Hr Hran. unfold MarkRan, Transaction.convenientTransaction.
    destruct (Transaction.begin_error h); [discriminate|].
    rewrite Hr, Hran. cbn. discriminate. }
  split; [|split; [|split]].
  - intros H1. destruct (Hok h1 table true H1) as (r & Hr & Ht).
    destruct (first_by_id_after_update table (ID i) true r Hr)
      as (r' & Hr' & Hran).
    assert (H2 : snd r2 <> None).
    { unfold r2, r1. rewrite Ht. exact (Hsecond h2 _ r' Hr' Hran). }
    split; [exact H2|].
    now apply Transaction.convenientTransaction_error_keeps.
  - exact Hkeep.
  - intros ran.
    destruct (snd (MarkRan h1 table i ran)) as [e|] eqn:He.
    + rewrite Hkeep; [reflexivity|]. rewrite He. discriminate.
    + destruct (Hok h1 table ran He) as (r & _ & Ht).
      rewrite Ht. apply update_ran_others.
  - intros H1. destruct (Hok h1 table false H1) as (r & Hr & Ht).
    destruct (first_by_id_after_update table (ID i) false r Hr)
      as (r' & Hr' & Hran).
    rewrite Ht. unfold MarkRan, Transaction.convenientTransaction.
    cbn [Transaction.begin_error Transaction.commit_error Transaction.healthy].
    rewrite Hr', Hran. reflexivity.
Qed.

End Initiators.

(** ** [FindUser] and [AuthorizedUserWithSession] *)

Module Sessions.

(** A row of [sessions]; times are instants on one clock, as integers. *)
Record Session : Type := mkSession {
  ID : string;
  LastUsed : Z
}.

Record User : Type := mkUser {
  Email : string;
  HashedPassword : string;
  CreatedAt : Z
}.

(** [models.User{}] *)
Definition no_user : User := mkUser "" "" 0.

Definition ErrRecordNotFound : error := errors_New "record not found".

(** [Order("created_at desc").First(&user)]: the user created last, the
    one stored first among equals. *)
Fixpoint newest (users : list User) : option User :=
  match users with
  | [] => None
  | u :: rest =>
      match newest rest with
      | Some v => if CreatedAt u <? CreatedAt v then Some v else Some u
      | None => Some u
      end
  end.

(** [func (orm *ORM) FindUser() (models.User, error)] *)
Definition FindUser (users : list User) : User * error :=
  match newest users with
  | Some u => (u, None)
  | None => (no_user, ErrRecordNotFound)
  end.

Definition has_id (id : string) (s : Session) : bool := String.eqb (ID s) id.

(** [orm.db.First(&session, "id = ?", sessionID)] *)
Definition first_by_id (sessions : list Session) (id : string)
  : option Session :=
  find (has_id id) sessions.

(** [orm.db.Save(&session)] of a session read from the table: its row is
    rewritten; taken to succeed. *)
Definition save (sessions : list Session) (s : Session) : list Session :=
  map (fun r => if has_id (ID s) r then s else r) sessions.

(** [func (orm *ORM) AuthorizedUserWithSession(sessionID string,
     sessionDuration time.Duration) (models.User, error)]; [now] is what
    [time.Now()] gives during the call.  The result is the table of
    sessions afterwards, the user and the error. *)
Definition AuthorizedUserWithSession (sessions : list Session)
    (users : list User) (now : Z) (sessionID : string) (sessionDuration : Z)
  : list Session * (User * error) :=
  if (String.length sessionID =? 0)%nat
  then (sessions, (no_user, errors_New "Session ID cannot be empty"))
  else
    match first_by_id sessions sessionID with
    | None => (sessions, (no_user, ErrRecordNotFound))
    | Some session =>
        if LastUsed session + sessionDuration <? now
        then (sessions, (no_user, errors_New "Session has expired"))
        else
          let session := mkSession (ID session) now in
          (save sessions session, FindUser users)
    end.

Lemma first_by_id_id sessions id s :
  first_by_id sessions id = Some s -> ID s = id.
Proof.
  intros H. apply find_some in H. destruct H as [_ H].
  now apply String.eqb_eq in H.
Qed.

Lemma first_by_id_after_save sessions id s now :
  first_by_id sessions id = Some s ->
  first_by_id (save sessions (mkSession (ID s) now)) id
  = Some (mkSession id now).
Proof.
  intros H. pose proof (first_by_id_id _ _ _ H) as Hid. rewrite Hid.
  clear Hid. revert H. unfold first_by_id, save.
  induction sessions as [|x sessions IH]; cbn [find map]; [discriminate|].
  cbn [ID]. destruct (has_id id x) eqn:Hx.
  - intros _. unfold has_id at 1. cbn [ID]. now rewrite String.eqb_refl.
  - rewrite Hx. exact IH.
Qed.

Example session_used_then_expired :
  let sessions := [mkSession "s1" 100] in
  let users := [mkUser "api@example.com" "hash" 5] in
  AuthorizedUserWithSession sessions users 150 "s1" 60
  = ([mkSession "s1" 150], (mkUser "api@example.com" "hash" 5, None))
  /\ AuthorizedUserWithSession sessions users 161 "s1" 60
     = (sessions, (no_user, errors_New "Session has expired"))
  /\ AuthorizedUserWithSession sessions users 150 "" 60
     = (sessions, (no_user, errors_New "Session ID cannot be empty")).
Proof. repeat split. Qed.

(** X6. [AuthorizedUserWithSession] gives a user only for a non-empty id
    of a stored session that was last used no longer than the duration
    ago, and then stamps the session with the current time, so that the
    next use within the duration is accepted again.  An empty id, an
    unknown id and an expired session are refused without any change to
    the table, and an expired session stays refused at every later time. *)
Theorem AuthorizedUserWithSession_sliding_expiry
    (sessions : list Session) (users : list User)
    (now : Z) (sessionID : string) (sessionDuration : Z) :
  let r := AuthorizedUserWithSession sessions users now sessionID
             sessionDuration in
  (snd (snd r) = None ->
     sessionID <> ""%string
     /\ (exists s, first_by_id sessions sessionID = Some s
                   /\ now <= LastUsed s + sessionDuration)
     /\ first_by_id (fst r) sessionID = Some (mkSession sessionID now)
     /\ forall later, now <= later <= now + sessionDuration ->
          snd (snd (AuthorizedUserWithSession (fst r) users later sessionID
                      sessionDuration)) = None)
  /\ (forall s, sessionID <> ""%string ->
                first_by_id sessions sessionID = Some s ->
                LastUsed s + sessionDuration < now ->
                forall later, now <= later ->
                  AuthorizedUserWithSession sessions users later sessionID
                    sessionDuration
                  = (sessions, (no_user, errors_New "Session has expired")))
  /\ (sessionID = ""%string \/ first_by_id sessions sessionID = None ->
      fst r = sessions /\ snd (snd r) <> None).
Proof.
  intros r. unfold r, AuthorizedUserWithSession.
  split; [|split].
  - destruct (String.length sessionID =? 0)%nat eqn:Hempty;
      [discriminate|].
    destruct (first_by_id sessions sessionID) as [s|] eqn:Hs;
      [|discriminate].
    destruct (LastUsed s + sessionDuration <? now) eqn:Hexp;
      [discriminate|].
    apply Z.ltb_ge in Hexp. cbn [fst snd]. intros Huser.
    split; [|split; [|split]].
    + intros ->. discriminate.
    + exists s. auto.
    + now apply first_by_id_after_save.
    + intros later Hlater.
      rewrite (first_by_id_after_save sessions sessionID s now Hs).
      cbn [LastUsed].
      replace (now + sessionDuration <? later) with false
        by (symmetry; apply Z.ltb_ge; lia).
      exact Huser.
  - intros s Hne Hs Hexp later Hlater.
    destruct (String.length sessionID =? 0)%nat eqn:Hempty.
    + exfalso. apply Nat.eqb_eq in Hempty.
      destruct sessionID; [now apply Hne|discriminate].
    + rewrite Hs.
      now replace (LastUsed s + sessionDuration <? later) with true
        by (symmetry; apply Z.ltb_lt; lia).
  - intros [->|Hnone].
    + cbn. split; [reflexivity|discriminate].
    + destruct (String.length sessionID =? 0)%nat;
        [cbn; split; [reflexivity|discriminate]|].
      rewrite Hnone. cbn. split; [reflexivity|discriminate].
Qed.

End Sessions.

(** ** [ignoreRecordNotFound] and [GetLastNonce] *)

Module Nonces.

(** The errors a gorm query has collected: the sentinel
    [gorm.ErrRecordNotFound] or some other error with its message. *)
Inductive gorm_error : Type :=
| ErrRecordNotFound
| OtherError (msg : string).

Definition is_not_found (e : gorm_error) : bool :=
  match e with
  | ErrRecordNotFound => true
  | OtherError _ => false
  end.

Definition to_error (e : gorm_error) : error :=
  match e with
  | ErrRecordNotFound => errors_New "record not found"
  | OtherError msg => errors_New msg
  end.

(** [func ignoreRecordNotFound(db *gorm.DB) error], given
    [db.GetErrors()]; [merr] is the accumulator of the loop. *)
Fixpoint ignoreRecordNotFound_from (merr : error) (errs : list gorm_error)
  : error :=
  match errs with
  | [] => merr
  | e :: rest =>
      if negb (is_not_found e)
      then ignoreRecordNotFound_from (multierr_Combine merr (to_error e)) rest
      else ignoreRecordNotFound_from merr rest
  end.

Definition ignoreRecordNotFound (errs : list gorm_error) : error :=
  ignoreRecordNotFound_from None errs.

(** A row of [txes] as far as the query looks at it. *)
Record Tx : Type := mkTx {
  From : string;
  Nonce : Z
}.

(** [models.Tx{}] *)
Definition no_tx : Tx := mkTx "" 0.

(** The row of [address] with the greatest nonce, if it has one. *)
Fixpoint greatest_nonce (address : string) (table : list Tx) : option Tx :=
  match table with
  | [] => None
  | t :: rest =>
      if String.eqb (From t) address
      then match greatest_nonce address rest with
           | Some u => if Nonce t <? Nonce u then Some u else Some t
           | None => Some t
           end
      else greatest_nonce address rest
  end.

(** [orm.db.Order("nonce desc").Where(`"from" = ?`, address).
     First(&transaction)], with the errors it has collected: the row of
    [address] with the greatest nonce and no error; or, when there is
    none, [transaction] as it was and the sentinel; or, when the query
    fails ([query_error] is its message), [transaction] as it was and
    that error. *)
Definition first_by_nonce_desc (table : list Tx)
    (query_error : option string) (address : string)
  : Tx * list gorm_error :=
  match query_error with
  | Some msg => (no_tx, [OtherError msg])
  | None =>
      match greatest_nonce address table with
      | Some t => (t, [])
      | None => (no_tx, [ErrRecordNotFound])
      end
  end.

(** [func (orm *ORM) GetLastNonce(address common.Address) (uint64, error)] *)
Definition GetLastNonce (table : list Tx) (query_error : option string)
    (address : string) : Z * error :=
  let '(transaction, errs) := first_by_nonce_desc table query_error address in
  (Nonce transaction, ignoreRecordNotFound errs).

Lemma ignoreRecordNotFound_from_spec errs : forall merr,
  ignoreRecordNotFound_from merr errs
  = multierr_Combine merr
      (match map (fun e => match e with
                           | OtherError msg => msg
                           | ErrRecordNotFound => ""%string
                           end)
                 (filter (fun e => negb (is_not_found e)) errs) with
       | [] => None
       | msgs => Some msgs
       end).
Proof.
  induction errs as [|e errs IH]; intros merr; cbn [ignoreRecordNotFound_from].
  - cbn. now destruct merr.
  - destruct e as [|msg]; cbn [is_not_found negb filter map].
    + apply IH.
    + rewrite IH. cbn [to_error errors_New].
      destruct merr as [l|];
        destruct (map _ (filter _ errs)); cbn; try reflexivity.
      now rewrite <- app_assoc.
Qed.

Example ignore_keeps_other_errors :
  ignoreRecordNotFound
    [ErrRecordNotFound; OtherError "timeout"; ErrRecordNotFound;
     OtherError "closed"]
  = Some ["timeout"; "closed"]%string.
Proof. reflexivity. Qed.

(** X7. [ignoreRecordNotFound] returns nil exactly when every collected
    error is the record-not-found sentinel (none at all included);
    otherwise it returns the other errors, all of them and in their order,
    and never the sentinel. *)
Theorem ignoreRecordNotFound_keeps_the_rest (errs : list gorm_error) :
  (ignoreRecordNotFound errs = None
   <-> Forall (fun e => e = ErrRecordNotFound) errs)
  /\ (forall msgs, ignoreRecordNotFound errs = Some msgs ->
        map OtherError msgs = filter (fun e => negb (is_not_found e)) errs).
Proof.
  unfold ignoreRecordNotFound. rewrite ignoreRecordNotFound_from_spec.
  assert (Hmap : forall l,
            Forall (fun e => is_not_found e = false) l ->
            map OtherError
                (map (fun e => match e with
                               | OtherError msg => msg
                               | ErrRecordNotFound => ""%string
                               end) l) = l).
  { induction 1 as [|e l He _ IH]; cbn [map]; [reflexivity|].
    rewrite IH. destruct e; [discriminate|reflexivity]. }
  assert (Hfilter : Forall (fun e => is_not_found e = false)
                      (filter (fun e => negb (is_not_found e)) errs)).
  { apply Forall_forall. intros e He. apply filter_In in He.
    destruct He as [_ He]. now apply negb_true_iff in He. }
  specialize (Hmap _ Hfilter).
  destruct (filter (fun e => negb (is_not_found e)) errs) as [|e kept]
    eqn:Hkept; cbn [map multierr_Combine].
  - split; [|discriminate]. split; [|reflexivity]. intros _.
    apply Forall_forall. intros e He.
    destruct e as [|msg]; [reflexivity|]. exfalso.
    assert (Hin : In (OtherError msg)
                     (filter (fun e => negb (is_not_found e)) errs))
      by (apply filter_In; auto).
    rewrite Hkept in Hin. contradiction.
  - split.
    + split; [discriminate|]. intros Hall. exfalso.
      assert (Hin : In e (filter (fun e => negb (is_not_found e)) errs))
        by (rewrite Hkept; now left).
      apply filter_In in Hin. destruct Hin as [Hin He].
      rewrite Forall_forall in Hall. rewrite (Hall e Hin) in He. discriminate.
    + intros msgs H. inversion H; subst msgs. exact Hmap.
Qed.

Lemma greatest_nonce_spec address table :
  match greatest_nonce address table with
  | Some t =>
      In t table /\ From t = address
      /\ forall u, In u table -> From u = address -> Nonce u <= Nonce t
  | None => forall u, In u table -> From u <> address
  end.
Proof.
  induction table as [|t table IH]; cbn [greatest_nonce].
  - intros u [].
  - destruct (String.eqb (From t) address) eqn:Ht.
    + apply String.eqb_eq in Ht.
      destruct (greatest_nonce address table) as [v|].
      * destruct IH as (Hin & Hv & Hmax).
        destruct (Nonce t <? Nonce v) eqn:Hlt.
        -- apply Z.ltb_lt in Hlt. split; [now right|]. split; [assumption|].
           intros u [<-|Hu] Hfrom; [lia|now apply Hmax].
        -- apply Z.ltb_ge in Hlt. split; [now left|]. split; [assumption|].
           intros u [<-|Hu] Hfrom; [lia|].
           specialize (Hmax u Hu Hfrom). lia.
      * split; [now left|]. split; [assumption|].
        intros u [<-|Hu] Hfrom; [lia|]. now contradiction (IH u Hu).
    + apply String.eqb_neq in Ht.
      destruct (greatest_nonce address table) as [v|].
      * destruct IH as (Hin & Hv & Hmax).
        split; [now right|]. split; [assumption|].
        intros u [<-|Hu] Hfrom; [contradiction|now apply Hmax].
      * intros u [<-|Hu]; [assumption|now apply IH].
Qed.

Example last_nonce_of_two_accounts :
  let table := [mkTx "0xa" 3; mkTx "0xb" 9; mkTx "0xa" 5; mkTx "0xa" 4] in
  GetLastNonce table None "0xa" = (5, None)
  /\ GetLastNonce table None "0xc" = (0, None)
  /\ GetLastNonce table (Some "connection lost"%string) "0xa"
     = (0, errors_New "connection lost").
Proof. repeat split. Qed.

(** X8. When its query does not fail, [GetLastNonce] returns a nil error:
    for an account without transactions it returns nonce 0, the answer it
    also gives for an account whose greatest nonce is 0, and for an
    account with transactions the greatest of their nonces.  When the
    query fails for another reason than a missing record, it returns
    nonce 0 together with that error, also for an account that has
    transactions. *)
Theorem GetLastNonce_greatest_or_zero (table : list Tx) (address : string) :
  snd (GetLastNonce table None address) = None
  /\ ((forall u, In u table -> From u <> address) ->
      GetLastNonce table None address = (0, None))
  /\ ((exists u, In u table /\ From u = address) ->
      (exists t, In t table /\ From t = address
                 /\ Nonce t = fst (GetLastNonce table None address))
      /\ forall u, In u table -> From u = address ->
                   Nonce u <= fst (GetLastNonce table None address))
  /\ (forall msg,
        GetLastNonce table (Some msg) address = (0, errors_New msg)).
Proof.
  pose proof (greatest_nonce_spec address table) as H.
  unfold GetLastNonce, first_by_nonce_desc.
  destruct (greatest_nonce address table) as [t|]; cbn [fst snd Nonce no_tx].
  - destruct H as (Hin & Hfrom & Hmax).
    split; [reflexivity|]. split; [|split; [|reflexivity]].
    + intros Hnone. now contradiction (Hnone t Hin).
    + intros _. split; [exists t; auto|exact Hmax].
  - split; [reflexivity|]. split; [reflexivity|]. split; [|reflexivity].
    intros (u & Hu & Hfrom). now contradiction (H u Hu).
Qed.

End Nonces.

(** ** [CreateSession] *)

Module Login.
Section WithHelpers.

(** [utils.CheckPasswordHash] and [models.NewSession] are not among the
    sources: the first is some test of a password against a stored hash,
    the second gives the session to store. *)
Variable CheckPasswordHash : string -> string -> bool.
Variable NewSession : Sessions.Session.

(** [models.SessionRequest] *)
Record SessionRequest : Type := mkSessionRequest {
  Email : string;
  Password : string
}.

(** The database: the two tables, and the error, if any, with which it
    fails the query of [FindUser] and the [Save]. *)
Record database : Type := mkDatabase {
  sessions : list Sessions.Session;
  users : list Sessions.User;
  find_error : error;
  save_error : error
}.

(** [orm.FindUser()] on that database. *)
Definition FindUser (db : database) : Sessions.User * error :=
  let err := find_error db in
  match err with
  | Some _ => (Sessions.no_user, err)
  | None => Sessions.FindUser (users db)
  end.

(** [orm.db.Save(&session)] of a new session: the row is added, unless the
    statement fails. *)
Definition save_new (db : database) (s : Sessions.Session)
  : list Sessions.Session * error :=
  let err := save_error db in
  match err with
  | Some _ => (sessions db, err)
  | None => (sessions db ++ [s], None)
  end.

(** [func (orm *ORM) CreateSession(sr models.SessionRequest)
     (string, error)]; the result is the table of sessions afterwards,
    the session id and the error. *)
Definition CreateSession (db : database) (sr : SessionRequest)
  : list Sessions.Session * (string * error) :=
  let '(user, err) := FindUser db in
  match err with
  | Some e => (sessions db, (""%string, Some e))
  | None =>
      if negb (Email.constantTimeEmailCompare
                 (Email.of_string (Email sr))
                 (Email.of_string (Sessions.Email user)))
      then (sessions db, (""%string, errors_New "Invalid email"))
      else if CheckPasswordHash (Password sr) (Sessions.HashedPassword user)
      then
        let session := NewSession in
        let '(stored, err) := save_new db session in
        (stored, (Sessions.ID session, err))
      else (sessions db, (""%string, errors_New "Invalid password"))
  end.

(** The request passes: there is a user, found without error, whose email
    and password it matches. *)
Definition passes (db : database) (sr : SessionRequest) : Prop :=
  find_error db = None
  /\ exists user,
       In user (users db)
       /\ Sessions.newest (users db) = Some user
       /\ Email.constantTimeEmailCompare
            (Email.of_string (Email sr))
            (Email.of_string (Sessions.Email user)) = true
       /\ CheckPasswordHash (Password sr) (Sessions.HashedPassword user)
          = true.

End WithHelpers.

Lemma newest_is_stored users u :
  Sessions.newest users = Some u -> In u users.
Proof.
  revert u. induction users as [|x users IH]; cbn [Sessions.newest];
    intros u H; [discriminate|].
  destruct (Sessions.newest users) as [v|].
  - destruct (Sessions.CreatedAt x <? Sessions.CreatedAt v);
      inversion H; subst; [right; now apply IH|now left].
  - inversion H. now left.
Qed.

Example session_id_comes_back_when_save_fails :
  CreateSession (fun password hash => String.eqb password hash)
    (Sessions.mkSession "s1" 100)
    (mkDatabase [] [Sessions.mkUser "a@b.c" "secret" 1] None
                (errors_New "disk full"))
    (mkSessionRequest "a@b.c" "secret")
  = ([], ("s1"%string, errors_New "disk full")).
Proof. reflexivity. Qed.

(** X9. [CreateSession] stores a session, and returns its id with a nil
    error, only when a user is found whose email equals the requested one
    up to trailing zero bytes and whose stored hash passes the password
    check; then exactly the new session is added.  Whenever it returns an
    error no session is stored, and the id returned is empty, except when
    the request passed both checks and it was the [Save] that failed:
    then the id of the session that was not stored comes back beside the
    error of [Save].  A request whose email does not match the user's is
    answered with "Invalid email" whatever the password is. *)
Theorem CreateSession_needs_email_and_password
    (CheckPasswordHash : string -> string -> bool)
    (NewSession : Sessions.Session)
    (db : database) (sr : SessionRequest) :
  let create := CreateSession CheckPasswordHash NewSession in
  let r := create db sr in
  (snd (snd r) = None ->
     fst r = sessions db ++ [NewSession]
     /\ fst (snd r) = Sessions.ID NewSession
     /\ passes CheckPasswordHash db sr /\ save_error db = None)
  /\ (snd (snd r) <> None ->
        fst r = sessions db
        /\ (fst (snd r) = EmptyString
            \/ (passes CheckPasswordHash db sr
                /\ r = (sessions db,
                        (Sessions.ID NewSession, save_error db)))))
  /\ (passes CheckPasswordHash db sr ->
        snd r = (Sessions.ID NewSession, save_error db))
  /\ (forall user,
        find_error db = None ->
        Sessions.newest (users db) = Some user ->
        Email.constantTimeEmailCompare
          (Email.of_string (Email sr))
          (Email.of_string (Sessions.Email user)) = false ->
        forall password,
          create db (mkSessionRequest (Email sr) password)
          = (sessions db, (EmptyString, errors_New "Invalid email")))
  /\ (find_error db <> None ->
        r = (sessions db, (EmptyString, find_error db))).
Proof.
  intros create r. unfold r, create, CreateSession, passes, FindUser, save_new.
  cbn [Email Password]. unfold Sessions.FindUser.
  destruct (find_error db) as [fe|] eqn:Hfe.
  { cbn [fst snd]. split; [discriminate|]. split; [auto|].
    split; [intros [H _]; discriminate|]. split; [discriminate|].
    reflexivity. }
  destruct (Sessions.newest (users db)) as [user|] eqn:Huser.
  - destruct (Email.constantTimeEmailCompare (Email.of_string (Email sr))
                (Email.of_string (Sessions.Email user))) eqn:Hmail;
      cbn [negb fst snd].
    + destruct (CheckPasswordHash (Password sr)
                  (Sessions.HashedPassword user)) eqn:Hpw; cbn [fst snd].
      * assert (Hpass : exists u,
                   In u (users db) /\ Some user = Some u
                   /\ Email.constantTimeEmailCompare
                        (Email.of_string (Email sr))
                        (Email.of_string (Sessions.Email u)) = true
                   /\ CheckPasswordHash (Password sr)
                        (Sessions.HashedPassword u) = true).
        { exists user. split; [now apply newest_is_stored|]. auto. }
        destruct (save_error db) as [se|] eqn:Hse; cbn [fst snd].
        -- split; [discriminate|]. split; [|split; [|split]].
           ++ intros _. split; [reflexivity|]. right. auto.
           ++ reflexivity.
           ++ intros u _ Hu Hm. inversion Hu; subst u. congruence.
           ++ intros H. now elim H.
        -- split; [|split; [|split; [|split]]].
           ++ intros _. auto.
           ++ intros H. now elim H.
           ++ reflexivity.
           ++ intros u _ Hu Hm. inversion Hu; subst u. congruence.
           ++ intros H. now elim H.
      * split; [discriminate|]. split; [auto|]. split; [|split].
        -- intros [_ (u & _ & Hu & _ & Hc)]. inversion Hu; subst u. congruence.
        -- intros u _ Hu Hm. inversion Hu; subst u. congruence.
        -- intros H. now elim H.
    + split; [discriminate|]. split; [auto|]. split; [|split].
      * intros [_ (u & _ & Hu & Hm & _)]. inversion Hu; subst u. congruence.
      * intros u _ Hu Hm password. reflexivity.
      * intros H. now elim H.
  - cbn [fst snd Sessions.ErrRecordNotFound].
    split; [discriminate|]. split; [auto|]. split; [|split].
    + intros [_ (u & _ & Hu & _)]. discriminate.
    + intros u _ Hu. discriminate.
    + intros H. now elim H.
Qed.

End Login.

(** ** [CreateTx] *)

Module EthTx.

(** A row of [txes]: the primary key, the two columns [CreateTx] looks a
    transaction up by, and the rest of the row. *)
Record Tx : Type := mkTx {
  ID : Z;
  SurrogateID : option string;
  Hash : string;
  Payload : string
}.

Definition with_id (tx : Tx) (id : Z) : Tx :=
  mkTx id (SurrogateID tx) (Hash tx) (Payload tx).

(** The condition of the lookup: ["surrogate_id = ?"] with the
    surrogate id when it is valid, ["hash = ?"] otherwise. *)
Definition looked_up_by (tx : Tx) (row : Tx) : bool :=
  match SurrogateID tx with
  | Some s =>
      match SurrogateID row with
      | Some s' => String.eqb s' s
      | None => false
      end
  | None => String.eqb (Hash row) (Hash tx)
  end.

(** The key the database gives to a row created without one. *)
Definition next_id (table : list Tx) : Z :=
  1 + fold_right (fun r m => Z.max (ID r) m) 0 table.

Definition has_id (id : Z) (r : Tx) : bool := ID r =? id.

(** [dbtx.Create(tx)]: the row is inserted under its own key, or under a
    new one when its key is zero; a key already in use is an error.  The
    result also gives [tx] as the call leaves it. *)
Definition create (table : list Tx) (tx : Tx) : list Tx * Tx * error :=
  let tx := if ID tx =? 0 then with_id tx (next_id table) else tx in
  if existsb (has_id (ID tx)) table
  then (table, tx, errors_New "duplicate key")
  else (table ++ [tx], tx, None).

(** [dbtx.Save(tx)] of a transaction that bears the key of a stored row:
    the row is rewritten. *)
Definition save (table : list Tx) (tx : Tx) : list Tx :=
  map (fun r => if has_id (ID tx) r then tx else r) table.

(** [func (orm *ORM) CreateTx(tx *models.Tx) ( *models.Tx, error)]; the
    result is the table afterwards, the returned transaction and the
    error. *)
Definition CreateTx (h : Transaction.health) (table : list Tx) (tx : Tx)
  : list Tx * option Tx * error :=
  let '(view, tx', err) :=
    match Transaction.begin_error h with
    | Some e => (table, tx, Some e)
    | None =>
        let '(view, tx', err) :=
          match find (looked_up_by tx) table with
          | None => create table tx
          | Some foundTx =>
              let tx := with_id tx (ID foundTx) in
              (save table tx, tx, None)
          end in
        match err with
        | Some e => (table, tx', Some e)
        | None =>
            match Transaction.commit_error h with
            | Some e => (table, tx', Some e)
            | None => (view, tx', None)
            end
        end
    end in
  match err with
  | Some e => (view, None, Some e)
  | None => (view, Some tx', None)
  end.

Lemma looked_up_by_with_id tx id : looked_up_by tx (with_id tx id) = true.
Proof.
  unfold looked_up_by, with_id. cbn [SurrogateID Hash].
  destruct (SurrogateID tx); apply String.eqb_refl.
Qed.

Lemma looked_up_by_same_key tx id row :
  looked_up_by (with_id tx id) row = looked_up_by tx row.
Proof. reflexivity. Qed.

Lemma next_id_above table r : In r table -> ID r < next_id table.
Proof.
  unfold next_id. induction table as [|x table IH]; cbn [fold_right].
  - intros [].
  - intros [<-|H]; [lia|]. specialize (IH H). lia.
Qed.

Lemma find_after_save tx table found :
  find (looked_up_by tx) table = Some found ->
  find (looked_up_by tx) (save table (with_id tx (ID found)))
  = Some (with_id tx (ID found)).
Proof.
  unfold save. cbn [ID with_id].
  induction table as [|x table IH]; cbn [find map]; [discriminate|].
  destruct (looked_up_by tx x) eqn:Hx.
  - intros H. inversion H; subst x. unfold has_id. rewrite Z.eqb_refl.
    fold (with_id tx (ID found)). now rewrite looked_up_by_with_id.
  - intros H. destruct (has_id (ID found) x).
    + fold (with_id tx (ID found)). now rewrite looked_up_by_with_id.
    + rewrite Hx. now apply IH.
Qed.

Lemma save_twice table tx : save (save table tx) tx = save table tx.
Proof.
  unfold save. rewrite map_map. apply map_ext. intros r.
  destruct (has_id (ID tx) r) eqn:Hr; [|now rewrite Hr].
  unfold has_id. now rewrite Z.eqb_refl.
Qed.

Lemma save_unknown_id table tx :
  (forall r, In r table -> ID r <> ID tx) -> save table tx = table.
Proof.
  intros H. unfold save. rewrite <- (map_id table) at 2.
  apply map_ext_in. intros r Hr. unfold has_id.
  destruct (ID r =? ID tx) eqn:E; [|reflexivity].
  apply Z.eqb_eq in E. now contradiction (H r Hr).
Qed.

Lemma find_in_app_last tx table row :
  find (looked_up_by tx) table = None ->
  looked_up_by tx row = true ->
  find (looked_up_by tx) (table ++ [row]) = Some row.
Proof.
  induction table as [|x table IH]; cbn [find app]; intros H Hrow.
  - now rewrite Hrow.
  - destruct (looked_up_by tx x); [discriminate|]. now apply IH.
Qed.

Lemma CreateTx_fixed_when_stored h table tx found :
  find (looked_up_by tx) table = Some found ->
  save table (with_id tx (ID found)) = table ->
  fst (fst (CreateTx h table tx)) = table.
Proof.
  intros Hfind Hsave. unfold CreateTx.
  destruct (Transaction.begin_error h); [reflexivity|].
  rewrite Hfind, Hsave.
  destruct (Transaction.commit_error h); reflexivity.
Qed.

Lemma CreateTx_error_keeps h table tx :
  snd (CreateTx h table tx) <> None ->
  fst (fst (CreateTx h table tx)) = table
  /\ snd (fst (CreateTx h table tx)) = None.
Proof.
  unfold CreateTx.
  destruct (Transaction.begin_error h); [auto|].
  destruct (find (looked_up_by tx) table) as [found|].
  - destruct (Transaction.commit_error h); [auto|]. cbn. congruence.
  - destruct (create table tx) as [[view tx'] [e|]]; [auto|].
    destruct (Transaction.commit_error h); [auto|]. cbn. congruence.
Qed.

Lemma CreateTx_ok h table tx :
  snd (CreateTx h table tx) = None ->
  match find (looked_up_by tx) table with
  | Some found =>
      CreateTx h table tx
      = (save table (with_id tx (ID found)),
         Some (with_id tx (ID found)), None)
  | None =>
      exists id,
        (forall r, In r table -> ID r <> id)
        /\ CreateTx h table tx
           = (table ++ [with_id tx id], Some (with_id tx id), None)
  end.
Proof.
  unfold CreateTx.
  destruct (Transaction.begin_error h); [discriminate|].
  destruct (find (looked_up_by tx) table) as [found|].
  - destruct (Transaction.commit_error h); [discriminate|]. reflexivity.
  - unfold create.
    set (tx1 := if ID tx =? 0 then with_id tx (next_id table) else tx).
    assert (Htx1 : tx1 = with_id tx (ID tx1)).
    { unfold tx1. destruct (ID tx =? 0); [reflexivity|]. now destruct tx. }
    destruct (existsb (has_id (ID tx1)) table) eqn:Hex; [discriminate|].
    destruct (Transaction.commit_error h); [discriminate|].
    intros _. exists (ID tx1). split.
    + intros r Hr E.
      assert (existsb (has_id (ID tx1)) table = true); [|congruence].
      apply existsb_exists. exists r. split; [assumption|].
      unfold has_id. now apply Z.eqb_eq.
    + now rewrite <- Htx1.
Qed.

Example create_tx_twice :
  let tx := mkTx 0 (Some "order-1"%string) "0xaa" "first" in
  let r1 := CreateTx Transaction.healthy
              [mkTx 4 None "0x01" "old"] tx in
  let r2 := CreateTx Transaction.healthy (fst (fst r1))
              (mkTx 0 (Some "order-1"%string) "0xbb" "bumped") in
  fst (fst r1) = [mkTx 4 None "0x01" "old";
                  mkTx 5 (Some "order-1"%string) "0xaa" "first"]
  /\ fst (fst r2) = [mkTx 4 None "0x01" "old";
                     mkTx 5 (Some "order-1"%string) "0xbb" "bumped"].
Proof. split; reflexivity. Qed.

(** X10. [CreateTx] stores a transaction once.  When a row already
    answers the lookup (by surrogate id if the transaction has one, by
    hash otherwise), the first such row is rewritten under its old key and
    no row is added; when none does, one row is added.  Either way the
    returned transaction is the stored row, and calling [CreateTx] again
    with the same transaction changes nothing more.  On an error the table
    is as before and no transaction is returned. *)
Theorem CreateTx_stores_once (h1 h2 : Transaction.health)
    (table : list Tx) (tx : Tx) :
  let r1 := CreateTx h1 table tx in
  let table1 := fst (fst r1) in
  (snd r1 = None ->
     (exists stored,
        snd (fst r1) = Some stored /\ In stored table1
        /\ stored = with_id tx (ID stored)
        /\ match find (looked_up_by tx) table with
           | Some found =>
               ID stored = ID found
               /\ List.length table1 = List.length table
           | None => table1 = table ++ [stored]
           end)
     /\ fst (fst (CreateTx h2 table1 tx)) = table1)
  /\ (snd r1 <> None -> table1 = table /\ snd (fst r1) = None).
Proof.
  intros r1 table1. split; [|apply CreateTx_error_keeps].
  intros Hok. pose proof (CreateTx_ok h1 table tx Hok) as H.
  unfold table1, r1.
  destruct (find (looked_up_by tx) table) as [found|] eqn:Hfind.
  - rewrite H. cbn [fst snd].
    pose proof (find_after_save tx table found Hfind) as Hagain.
    split.
    + exists (with_id tx (ID found)). split; [reflexivity|].
      split; [now apply find_some in Hagain|].
      split; [reflexivity|]. split; [reflexivity|].
      unfold save. apply length_map.
    + apply (CreateTx_fixed_when_stored h2 _ tx (with_id tx (ID found)));
        [exact Hagain|]. cbn [ID with_id].
      fold (with_id tx (ID found)). apply save_twice.
  - destruct H as (id & Hfresh & H). rewrite H. cbn [fst snd].
    split.
    + exists (with_id tx id). split; [reflexivity|].
      split; [apply in_or_app; right; now left|].
      split; reflexivity.
    + apply (CreateTx_fixed_when_stored h2 _ tx (with_id tx id)).
      * apply find_in_app_last; [assumption|apply looked_up_by_with_id].
      * cbn [ID with_id]. fold (with_id tx id).
        unfold save. rewrite map_app. cbn [map ID with_id].
        unfold has_id at 2. cbn [ID]. rewrite Z.eqb_refl. f_equal.
        apply (save_unknown_id table (with_id tx id)). exact Hfresh.
Qed.

End EthTx.

(** ** [SortType], [CountOf], [getRecords] and [JobRunsSorted] *)

Module Paging.

(** [SortType] is an [int]; [Ascending] and [Descending] are its two named
    values. *)
Definition SortType : Type := Z.
Definition Ascending : SortType := 0.
Definition Descending : SortType := 1.

(** [func (s SortType) String() string] *)
Definition SortType_String (s : SortType) : string :=
  let orderStr := "asc"%string in
  if s =? Descending then "desc"%string else orderStr.

(** [ORDER BY] one of the two orders [JobRunsSorted] can ask for, applied
    to the rows as the query reads them.  Rows with equal [created_at]
    keep the order in which they are read (reversed for the descending
    order): the statement names no other column, so their order is up to
    the database and can differ from query to query. *)
Definition order_rows (order : string) (rows : list JobRuns.JobRun)
  : list JobRuns.JobRun :=
  if String.eqb order "created_at desc"
  then rev (JobRuns.order_by_created_at rows)
  else JobRuns.order_by_created_at rows.

(** [LIMIT] and [OFFSET] as gorm writes them: a negative number leaves the
    clause out. *)
Definition limit_offset {A : Type} (rows : list A) (offset limit : Z)
  : list A :=
  let rows := if offset <? 0 then rows else skipn (Z.to_nat offset) rows in
  if limit <? 0 then rows else firstn (Z.to_nat limit) rows.

(** The database: the rows of [job_runs]; the rows as the select query
    with a given offset reads them, every query in an order of its own;
    and the error, if any, of the count query and of the select query. *)
Record database : Type := mkDatabase {
  job_runs : list JobRuns.JobRun;
  find_scan : Z -> list JobRuns.JobRun;
  count_error : error;
  find_error : error
}.

(** Queries on the model [models.JobRun] that are not [Unscoped] see only
    the rows whose [deleted_at] is null. *)
Definition live (r : JobRuns.JobRun) : bool :=
  match JobRuns.DeletedAt r with
  | None => true
  | Some _ => false
  end.

(** [func (orm *ORM) CountOf(t interface{}) (int, error)]; a failed count
    leaves [count] at zero. *)
Definition CountOf (db : database) : Z * error :=
  match count_error db with
  | Some e => (0, Some e)
  | None => (Z.of_nat (List.length (filter live (job_runs db))), None)
  end.

(** [func (orm *ORM) getRecords(collection interface{}, order string,
     offset, limit int) error], with the collection it fills; a failed
    query leaves the collection nil. *)
Definition getRecords (db : database) (order : string) (offset limit : Z)
  : list JobRuns.JobRun * error :=
  match find_error db with
  | Some e => ([], Some e)
  | None =>
      (limit_offset (order_rows order (filter live (find_scan db offset)))
                    offset limit,
       None)
  end.

(** [func (orm *ORM) JobRunsSorted(sort SortType, offset int, limit int)
     ([]models.JobRun, int, error)] *)
Definition JobRunsSorted (db : database) (sort : SortType)
    (offset limit : Z) : list JobRuns.JobRun * Z * error :=
  let '(count, err) := CountOf db in
  match err with
  | Some e => ([], 0, Some e)
  | None =>
      let order := ("created_at " ++ SortType_String sort)%string in
      let '(runs, err) := getRecords db order offset limit in
      (runs, count, err)
  end.

Definition runs_of (r : list JobRuns.JobRun * Z * error)
  : list JobRuns.JobRun := fst (fst r).
Definition count_of (r : list JobRuns.JobRun * Z * error) : Z :=
  snd (fst r).
Definition error_of (r : list JobRuns.JobRun * Z * error) : error := snd r.

(** The live runs of a table in the order that [sort] asks for. *)
Definition sorted_runs (table : list JobRuns.JobRun) (sort : SortType)
  : list JobRuns.JobRun :=
  if sort =? Descending
  then rev (JobRuns.order_by_created_at (filter live table))
  else JobRuns.order_by_created_at (filter live table).

(** The first [n] pages of [limit] runs each, one after the other. *)
Definition pages (db : database) (sort : SortType) (limit : Z) (n : nat)
  : list JobRuns.JobRun :=
  List.concat
    (map (fun k => runs_of (JobRunsSorted db sort (Z.of_nat k * limit) limit))
         (seq 0 n)).

Definition ge_created_at (a b : JobRuns.JobRun) : Prop :=
  JobRuns.CreatedAt b <= JobRuns.CreatedAt a.

(** What [sort] promises about a list of runs. *)
Definition in_order (sort : SortType) (l : list JobRuns.JobRun) : Prop :=
  if sort =? Descending
  then StronglySorted ge_created_at l
  else StronglySorted JobRuns.le_created_at l.

(** A database that answers, and reads the table as [scan] says. *)
Definition answering (table : list JobRuns.JobRun)
    (scan : Z -> list JobRuns.JobRun) : database :=
  mkDatabase table scan None None.

Lemma filter_perm {A : Type} (f : A -> bool) l1 l2 :
  Permutation l1 l2 -> Permutation (filter f l1) (filter f l2).
Proof.
  induction 1 as [|x l1 l2 _ IH|x y l|l1 l2 l3 _ IH1 _ IH2]; cbn [filter].
  - constructor.
  - destruct (f x); [now constructor|exact IH].
  - destruct (f x), (f y); try reflexivity. apply perm_swap.
  - now transitivity (filter f l2).
Qed.

(** With distinct stamps there is one way only to put runs in ascending
    order. *)
Lemma sorted_unique l1 : forall l2,
  Permutation l1 l2 ->
  NoDup (map JobRuns.CreatedAt l1) ->
  StronglySorted JobRuns.le_created_at l1 ->
  StronglySorted JobRuns.le_created_at l2 ->
  l1 = l2.
Proof.
  induction l1 as [|a l1 IH]; intros l2 Hperm Hnd Hs1 Hs2.
  - apply Permutation_nil in Hperm. now subst.
  - destruct l2 as [|b l2].
    { symmetry in Hperm. now apply Permutation_nil in Hperm. }
    inversion Hs1 as [|? ? Hs1' Ha]; subst.
    inversion Hs2 as [|? ? Hs2' Hb]; subst.
    rewrite Forall_forall in Ha, Hb.
    assert (Hab : a = b).
    { assert (Hbin : In b (a :: l1))
        by (apply (Permutation_in _ (Permutation_sym Hperm)); now left).
      assert (Hain : In a (b :: l2))
        by (apply (Permutation_in _ Hperm); now left).
      destruct Hbin as [Heq|Hbin]; [exact Heq|].
      destruct Hain as [Heq|Hain]; [now symmetry|].
      specialize (Ha b Hbin). specialize (Hb a Hain).
      unfold JobRuns.le_created_at in *.
      assert (Hstamp : JobRuns.CreatedAt a = JobRuns.CreatedAt b) by lia.
      exfalso. cbn [map] in Hnd. inversion Hnd as [|? ? Hnotin _]; subst.
      apply Hnotin. rewrite Hstamp. now apply in_map. }
    subst b. f_equal. apply IH.
    + now apply Permutation_cons_inv in Hperm.
    + cbn [map] in Hnd. now inversion Hnd.
    + exact Hs1'.
    + exact Hs2'.
Qed.

Lemma order_of_scan table scan :
  Permutation scan table ->
  NoDup (map JobRuns.CreatedAt (filter live table)) ->
  JobRuns.order_by_created_at (filter live scan)
  = JobRuns.order_by_created_at (filter live table).
Proof.
  intros Hscan Hnd.
  assert (Hperm : Permutation (JobRuns.order_by_created_at (filter live scan))
                              (JobRuns.order_by_created_at (filter live table))).
  { rewrite !JobRuns.order_perm. now apply filter_perm. }
  symmetry. apply sorted_unique.
  - now symmetry.
  - eapply Permutation_NoDup; [|exact Hnd].
    apply Permutation_map. symmetry. apply JobRuns.order_perm.
  - apply JobRuns.order_sorted.
  - apply JobRuns.order_sorted.
Qed.

Lemma JobRunsSorted_page table scan sort offset limit :
  Permutation (scan offset) table ->
  NoDup (map JobRuns.CreatedAt (filter live table)) ->
  0 <= offset -> 0 <= limit ->
  runs_of (JobRunsSorted (answering table scan) sort offset limit)
  = firstn (Z.to_nat limit) (skipn (Z.to_nat offset) (sorted_runs table sort)).
Proof.
  intros Hscan Hnd Ho Hl.
  unfold runs_of, JobRunsSorted, CountOf, getRecords,
    limit_offset, order_rows, sorted_runs, SortType_String, answering.
  cbn [count_error find_error job_runs find_scan fst].
  replace (offset <? 0) with false by (symmetry; apply Z.ltb_ge; lia).
  replace (limit <? 0) with false by (symmetry; apply Z.ltb_ge; lia).
  rewrite (order_of_scan table (scan offset) Hscan Hnd).
  now destruct (sort =? Descending).
Qed.

Lemma firstn_skipn_next {A : Type} (l : list A) a b :
  firstn a l ++ firstn b (skipn a l) = firstn (a + b) l.
Proof.
  revert l. induction a as [|a IH]; intros l; [reflexivity|].
  destruct l as [|x l]; cbn [firstn skipn Nat.add app].
  - now rewrite firstn_nil.
  - now rewrite IH.
Qed.

Lemma pages_tile table scan sort limit n :
  (forall offset, Permutation (scan offset) table) ->
  NoDup (map JobRuns.CreatedAt (filter live table)) ->
  0 <= limit ->
  pages (answering table scan) sort limit n
  = firstn (n * Z.to_nat limit) (sorted_runs table sort).
Proof.
  intros Hscan Hnd Hl. unfold pages. induction n as [|n IH]; [reflexivity|].
  rewrite seq_S, map_app, concat_app, IH. cbn [map List.concat Nat.add].
  rewrite app_nil_r, JobRunsSorted_page by (auto; lia).
  replace (Z.to_nat (Z.of_nat n * limit)) with (n * Z.to_nat limit)%nat
    by (rewrite Z2Nat.inj_mul, Nat2Z.id by lia; reflexivity).
  rewrite firstn_skipn_next. f_equal. lia.
Qed.

Lemma sorted_runs_perm table sort :
  Permutation (sorted_runs table sort) (filter live table).
Proof.
  unfold sorted_runs. destruct (sort =? Descending).
  - rewrite <- Permutation_rev. apply JobRuns.order_perm.
  - apply JobRuns.order_perm.
Qed.

Lemma sorted_snoc {A : Type} (R : A -> A -> Prop) l a :
  StronglySorted R l -> Forall (fun x => R x a) l ->
  StronglySorted R (l ++ [a]).
Proof.
  induction 1 as [|x l Hs IH Hx]; intros Hall; cbn [app].
  - constructor; constructor.
  - inversion Hall as [|? ? Hxa Hl]; subst. constructor.
    + now apply IH.
    + apply Forall_app. split; [exact Hx | now constructor].
Qed.

Lemma sorted_rev {A : Type} (R : A -> A -> Prop) l :
  StronglySorted R l -> StronglySorted (fun a b => R b a) (rev l).
Proof.
  induction 1 as [|x l Hs IH Hx]; cbn [rev]; [constructor|].
  apply sorted_snoc; [exact IH|].
  apply Forall_rev. exact Hx.
Qed.

Lemma sorted_runs_in_order table sort : in_order sort (sorted_runs table sort).
Proof.
  unfold in_order, sorted_runs. destruct (sort =? Descending).
  - apply (sorted_rev JobRuns.le_created_at), JobRuns.order_sorted.
  - apply JobRuns.order_sorted.
Qed.

Definition four_runs : list JobRuns.JobRun :=
  [ JobRuns.mkJobRun "b" "completed" 20 None;
    JobRuns.mkJobRun "d" "completed" 15 (Some 40);
    JobRuns.mkJobRun "c" "errored" 30 None;
    JobRuns.mkJobRun "a" "completed" 10 None ]%string.

Example second_page_newest_first :
  JobRunsSorted (answering four_runs (fun _ => four_runs)) Descending 2 2
  = ([JobRuns.mkJobRun "a" "completed" 10 None]%string, 3, None).
Proof. reflexivity. Qed.

Example negative_limit_is_no_limit :
  runs_of (JobRunsSorted (answering four_runs (fun _ => rev four_runs))
             Ascending 1 (-1))
  = [ JobRuns.mkJobRun "b" "completed" 20 None;
      JobRuns.mkJobRun "c" "errored" 30 None ]%string.
Proof. reflexivity. Qed.

(** Two runs with the same stamp, read in one order for the first page
    and in the other for the second: the pages show one run twice and the
    other never. *)
Example equal_stamps_can_repeat_a_run :
  let x := JobRuns.mkJobRun "x" "completed" 10 None in
  let y := JobRuns.mkJobRun "y" "completed" 10 None in
  let scan := fun offset : Z => if offset =? 0 then [x; y] else [y; x] in
  pages (answering [x; y] scan) Ascending 1 2 = [x; x].
Proof. reflexivity. Qed.

(** X11. On a table whose runs that are not soft-deleted have distinct
    [created_at], and however each query reads the table, [JobRunsSorted]
    pages through one fixed ordering of those runs.  When both queries
    succeed there is a list [ordered], a rearrangement of the rows of
    [job_runs] whose [deleted_at] is null that is oldest first by
    [created_at] (newest first when [sort] is [Descending]), such that
    for every non-negative [limit] the pages asked for at the offsets [0],
    [limit], [2 * limit], ... are the consecutive segments of [ordered]:
    the first [n] of them put end to end are its first [n * limit] runs,
    hence all of it, each run once, as soon as [n * limit] reaches the
    count.  The count returned beside every page is the number of all
    those runs, whatever the page.  When the count query fails nothing is
    selected: no runs, count [0] and that error; when the select fails the
    count comes back with no runs and the select's error. *)
Theorem JobRunsSorted_pages_tile_the_table
    (table : list JobRuns.JobRun) (scan : Z -> list JobRuns.JobRun)
    (sort : SortType) (limit : Z)
    (Hlimit : 0 <= limit)
    (Hscan : forall offset, Permutation (scan offset) table)
    (Hdistinct : NoDup (map JobRuns.CreatedAt (filter live table))) :
  let db := answering table scan in
  (exists ordered,
     Permutation ordered (filter live table) /\ in_order sort ordered
     /\ (forall n, pages db sort limit n = firstn (n * Z.to_nat limit) ordered)
     /\ (forall n,
           Z.of_nat (List.length (filter live table)) <= Z.of_nat n * limit ->
           pages db sort limit n = ordered))
  /\ (forall offset,
        count_of (JobRunsSorted db sort offset limit)
        = Z.of_nat (List.length (filter live table))
        /\ error_of (JobRunsSorted db sort offset limit) = None)
  /\ (forall e find_err offset,
        JobRunsSorted (mkDatabase table scan (Some e) find_err) sort offset
          limit
        = ([], 0, Some e))
  /\ (forall e offset,
        JobRunsSorted (mkDatabase table scan None (Some e)) sort offset limit
        = ([], Z.of_nat (List.length (filter live table)), Some e)).
Proof.
  intros db. split; [|split; [|split]].
  - exists (sorted_runs table sort).
    split; [apply sorted_runs_perm|].
    split; [apply sorted_runs_in_order|].
    split; [intros n; now apply pages_tile|].
    intros n Hn. unfold db. rewrite pages_tile by assumption.
    apply firstn_all2.
    rewrite (Permutation_length (sorted_runs_perm table sort)).
    apply Nat2Z.inj_le. rewrite Nat2Z.inj_mul, Z2Nat.id by lia. exact Hn.
  - intros offset. split; reflexivity.
  - reflexivity.
  - reflexivity.
Qed.

Lemma JobRunsSorted_pages_tile_the_table_witness :
  exists ordered,
    Permutation ordered (filter live four_runs)
    /\ in_order Descending ordered
    /\ pages (answering four_runs
                (fun offset => if offset =? 0 then four_runs
                               else rev four_runs))
             Descending 2 2
       = ordered.
Proof.
  assert (Hscan : forall offset : Z,
             Permutation (if offset =? 0 then four_runs else rev four_runs)
                         four_runs).
  { intros offset. destruct (offset =? 0); [reflexivity|].
    symmetry. apply Permutation_rev. }
  assert (Hdistinct : NoDup (map JobRuns.CreatedAt (filter live four_runs))).
  { cbn. repeat constructor; cbn; intuition discriminate. }
  destruct (proj1 (JobRunsSorted_pages_tile_the_table four_runs
                     (fun offset => if offset =? 0 then four_runs
                                    else rev four_runs)
                     Descending 2 ltac:(lia) Hscan Hdistinct))
    as (ordered & Hperm & Horder & _ & Hall).
  exists ordered. split; [exact Hperm|]. split; [exact Horder|].
  apply (Hall 2%nat). cbn. lia.
Defined.

End Paging.

(** ** [DeleteStaleSessions], [DeleteUserSession], [ClearSessions] and
       [ClearNonCurrentSessions] *)

Module SessionCleanup.

Import Sessions.

(** A [Where(...).Delete(models.Session{})]: the rows that satisfy the
    condition go; a failed statement removes nothing. *)
Definition delete_where (cond : Session -> bool) (sessions : list Session)
    (delete_error : error) : list Session * error :=
  match delete_error with
  | Some e => (sessions, Some e)
  | None => (filter (fun s => negb (cond s)) sessions, None)
  end.

(** [func (orm *ORM) DeleteStaleSessions(before time.Time) error]:
    [Where("last_used < ?", before)]. *)
Definition DeleteStaleSessions (sessions : list Session)
    (delete_error : error) (before : Z) : list Session * error :=
  delete_where (fun s => LastUsed s <? before) sessions delete_error.

(** [func (orm *ORM) DeleteUserSession(sessionID string) error]:
    [Where("id = ?", sessionID)]. *)
Definition DeleteUserSession (sessions : list Session)
    (delete_error : error) (sessionID : string) : list Session * error :=
  delete_where (has_id sessionID) sessions delete_error.

(** [func (orm *ORM) ClearSessions() error]: no condition. *)
Definition ClearSessions (sessions : list Session) (delete_error : error)
  : list Session * error :=
  delete_where (fun _ => true) sessions delete_error.

(** [func (orm *ORM) ClearNonCurrentSessions(sessionID string) error]:
    [Where("id <> ?", sessionID)]. *)
Definition ClearNonCurrentSessions (sessions : list Session)
    (delete_error : error) (sessionID : string) : list Session * error :=
  delete_where (fun s => negb (has_id sessionID s)) sessions delete_error.

Lemma first_by_id_unique sessions s :
  NoDup (map ID sessions) -> In s sessions ->
  first_by_id sessions (ID s) = Some s.
Proof.
  unfold first_by_id.
  induction sessions as [|x sessions IH]; cbn [map find In]; [intros _ []|].
  intros Hnd [->|Hin].
  - unfold has_id. now rewrite String.eqb_refl.
  - inversion Hnd as [|? ? Hx Hnd']; subst.
    destruct (has_id (ID s) x) eqn:Hxs.
    + exfalso. apply Hx. apply String.eqb_eq in Hxs. rewrite Hxs.
      now apply in_map.
    + now apply IH.
Qed.

Lemma NoDup_ids_filter (f : Session -> bool) sessions :
  NoDup (map ID sessions) -> NoDup (map ID (filter f sessions)).
Proof.
  induction sessions as [|x sessions IH]; cbn [map filter]; [auto|].
  intros Hnd. inversion Hnd as [|? ? Hx Hnd']; subst.
  destruct (f x); [|now apply IH].
  cbn [map]. constructor; [|now apply IH].
  intros Hin. apply Hx. apply in_map_iff in Hin.
  destruct Hin as [y [Hy Hin]]. apply filter_In in Hin.
  rewrite <- Hy. apply in_map. tauto.
Qed.

Lemma first_by_id_missing sessions id :
  (forall s, In s sessions -> ID s <> id) -> first_by_id sessions id = None.
Proof.
  intros H. unfold first_by_id.
  destruct (find (has_id id) sessions) as [s|] eqn:Hs; [|reflexivity].
  apply find_some in Hs. destruct Hs as [Hin Hid].
  apply String.eqb_eq in Hid. now elim (H s Hin).
Qed.

Lemma first_by_id_filter_other (f : Session -> bool) sessions id :
  (forall s, ID s = id -> f s = true) ->
  first_by_id (filter f sessions) id = first_by_id sessions id.
Proof.
  intros Hf. unfold first_by_id.
  induction sessions as [|x sessions IH]; cbn [filter find]; [reflexivity|].
  destruct (has_id id x) eqn:Hx.
  - rewrite (Hf x) by now apply String.eqb_eq in Hx.
    cbn [find]. now rewrite Hx.
  - destruct (f x); [cbn [find]; now rewrite Hx|exact IH].
Qed.

Lemma nonempty_id (id : string) :
  id <> ""%string -> (String.length id =? 0)%nat = false.
Proof. destruct id; [intros H; now elim H|reflexivity]. Qed.

Example reaped_and_refused :
  let sessions := [mkSession "old" 100; mkSession "edge" 140;
                   mkSession "new" 190]%string in
  DeleteStaleSessions sessions None (200 - 60)
  = ([mkSession "edge" 140; mkSession "new" 190]%string, None)
  /\ snd (snd (AuthorizedUserWithSession sessions [mkUser "a@b.c" "h" 1]
                 200 "edge" 60)) = None.
Proof. split; reflexivity. Qed.

(** X12. [DeleteStaleSessions] and [AuthorizedUserWithSession] draw the
    line between a stale and a usable session at the same instant.  With
    session ids distinct and [before] set to [now] minus the session
    duration, a successful [DeleteStaleSessions] keeps exactly the sessions
    last used at [now - duration] or later; at time [now] a kept session is
    never refused as expired (the call stamps it and goes on to find the
    user), while every removed session was one the original table refused
    as expired and is unknown afterwards.  A failed delete leaves the table
    as it was. *)
Theorem DeleteStaleSessions_removes_what_has_expired
    (sessions : list Session) (users : list User) (now duration : Z)
    (Hids : NoDup (map ID sessions)) :
  let kept := fst (DeleteStaleSessions sessions None (now - duration)) in
  (forall s, In s kept <-> In s sessions /\ now <= LastUsed s + duration)
  /\ (forall s, In s kept -> ID s <> ""%string ->
        AuthorizedUserWithSession kept users now (ID s) duration
        = (save kept (mkSession (ID s) now), FindUser users))
  /\ (forall s, In s sessions -> ~ In s kept -> ID s <> ""%string ->
        AuthorizedUserWithSession sessions users now (ID s) duration
        = (sessions, (no_user, errors_New "Session has expired"))
        /\ AuthorizedUserWithSession kept users now (ID s) duration
           = (kept, (no_user, ErrRecordNotFound)))
  /\ (forall e before,
        DeleteStaleSessions sessions (Some e) before = (sessions, Some e)).
Proof.
  intros kept.
  assert (Hkept : forall s,
            In s kept <-> In s sessions /\ now <= LastUsed s + duration).
  { intros s. unfold kept, DeleteStaleSessions, delete_where. cbn [fst].
    rewrite filter_In. rewrite negb_true_iff, Z.ltb_ge.
    split; intros [H1 H2]; split; auto; lia. }
  split; [exact Hkept|].
  split; [|split].
  - intros s Hin Hne. unfold AuthorizedUserWithSession.
    rewrite (nonempty_id _ Hne).
    rewrite (first_by_id_unique kept s); [|now apply NoDup_ids_filter|exact Hin].
    apply Hkept in Hin. destruct Hin as [_ Hfresh].
    now replace (LastUsed s + duration <? now) with false
      by (symmetry; apply Z.ltb_ge; lia).
  - intros s Hin Hout Hne. unfold AuthorizedUserWithSession.
    rewrite (nonempty_id _ Hne). split.
    + rewrite (first_by_id_unique sessions s Hids Hin).
      replace (LastUsed s + duration <? now) with true; [reflexivity|].
      symmetry. apply Z.ltb_lt.
      destruct (Z.lt_ge_cases (LastUsed s + duration) now) as [H|H]; [exact H|].
      exfalso. apply Hout. apply Hkept. split; [exact Hin|lia].
    + rewrite first_by_id_missing; [reflexivity|].
      intros t Ht Heq. apply Hout.
      assert (Hts : t = s).
      { apply Hkept in Ht. destruct Ht as [Ht _].
        pose proof (first_by_id_unique sessions t Hids Ht) as H1.
        pose proof (first_by_id_unique sessions s Hids Hin) as H2.
        rewrite Heq in H1. congruence. }
      rewrite <- Hts. exact Ht.
  - reflexivity.
Qed.

Lemma DeleteStaleSessions_removes_what_has_expired_witness :
  NoDup (map ID [mkSession "old" 100; mkSession "new" 190]%string)
  /\ forall s,
       In s (fst (DeleteStaleSessions
                    [mkSession "old" 100; mkSession "new" 190]%string
                    None (200 - 60)))
       <-> In s [mkSession "old" 100; mkSession "new" 190]%string
           /\ 200 <= LastUsed s + 60.
Proof.
  assert (H : NoDup (map ID [mkSession "old" 100; mkSession "new" 190]%string)).
  { cbn [map ID]. constructor.
    - intros [H|[]]. discriminate H.
    - constructor; [intros []|constructor]. }
  split; [exact H|].
  exact (proj1 (DeleteStaleSessions_removes_what_has_expired
                  [mkSession "old" 100; mkSession "new" 190]%string
                  [] 200 60 H)).
Defined.

(** X13. Logging out and clearing sessions.  After a successful
    [DeleteUserSession] of a non-empty id, [AuthorizedUserWithSession]
    answers that id with "record not found" and changes nothing, while
    every other id finds the session it found before.
    [ClearNonCurrentSessions] is the mirror image: the given id finds the
    session it found before and every other id finds none.
    [ClearSessions] leaves no session at all.  Each of the three, when its
    delete statement fails, leaves the table as it was and returns the
    error. *)
Theorem session_deletes_cut_by_id
    (sessions : list Session) (users : list User)
    (now duration : Z) (sessionID : string) :
  (let kept := fst (DeleteUserSession sessions None sessionID) in
   (sessionID <> ""%string ->
      AuthorizedUserWithSession kept users now sessionID duration
      = (kept, (no_user, ErrRecordNotFound)))
   /\ forall other, other <> sessionID ->
        first_by_id kept other = first_by_id sessions other)
  /\ (let kept := fst (ClearNonCurrentSessions sessions None sessionID) in
      first_by_id kept sessionID = first_by_id sessions sessionID
      /\ forall other, other <> sessionID -> first_by_id kept other = None)
  /\ ClearSessions sessions None = ([], None)
  /\ (forall e,
        DeleteUserSession sessions (Some e) sessionID = (sessions, Some e)
        /\ ClearNonCurrentSessions sessions (Some e) sessionID
           = (sessions, Some e)
        /\ ClearSessions sessions (Some e) = (sessions, Some e)).
Proof.
  split; [|split; [|split]].
  - cbn zeta. unfold DeleteUserSession, delete_where. cbn [fst]. split.
    + intros Hne. unfold AuthorizedUserWithSession.
      rewrite (nonempty_id _ Hne).
      rewrite first_by_id_missing; [reflexivity|].
      intros s Hs Hid. apply filter_In in Hs. destruct Hs as [_ Hs].
      apply negb_true_iff in Hs. unfold has_id in Hs.
      rewrite Hid, String.eqb_refl in Hs. discriminate.
    + intros other Hother. apply first_by_id_filter_other.
      intros s Hs. apply negb_true_iff. unfold has_id.
      apply String.eqb_neq. congruence.
  - cbn zeta. unfold ClearNonCurrentSessions, delete_where. cbn [fst]. split.
    + apply first_by_id_filter_other. intros s Hs.
      rewrite negb_involutive. unfold has_id. now apply String.eqb_eq.
    + intros other Hother. apply first_by_id_missing.
      intros s Hs Hid. apply filter_In in Hs. destruct Hs as [_ Hs].
      rewrite negb_involutive in Hs. apply String.eqb_eq in Hs. congruence.
  - unfold ClearSessions, delete_where. f_equal.
    induction sessions as [|x l IH]; [reflexivity|exact IH].
  - intros e. repeat split.
Qed.

End SessionCleanup.

(** ** [CreateHead], [FirstHead] and [LastHead] *)

Module Heads.

(** A row of [heads]: the primary key, the block number and the hash. *)
Record Head : Type := mkHead {
  ID : Z;
  Number : Z;
  Hash : string
}.

(** [&models.Head{}] *)
Definition no_head : Head := mkHead 0 0 "".

(** [Order("number asc").First(...)] and [Order("number desc").First(...)]:
    gorm's [First] orders by the primary key after the order asked for.
    [before a b] says that row [a] comes before row [b]. *)
Definition before_asc (a b : Head) : bool :=
  (Number a <? Number b) || ((Number a =? Number b) && (ID a <? ID b)).

Definition before_desc (a b : Head) : bool :=
  (Number b <? Number a) || ((Number a =? Number b) && (ID a <? ID b)).

Fixpoint first_by (before : Head -> Head -> bool) (rows : list Head)
  : option Head :=
  match rows with
  | [] => None
  | h :: rest =>
      match first_by before rest with
      | Some b => if before b h then Some b else Some h
      | None => Some h
      end
  end.

(** The query of [FirstHead] or [LastHead]: the row found, or the sentinel
    on an empty table, or the error of a failed query. *)
Definition first_head (before : Head -> Head -> bool) (table : list Head)
    (query_error : option string) : Head * option Nonces.gorm_error :=
  match query_error with
  | Some msg => (no_head, Some (Nonces.OtherError msg))
  | None =>
      match first_by before table with
      | Some h => (h, None)
      | None => (no_head, Some Nonces.ErrRecordNotFound)
      end
  end.

(** The two functions differ in the order only.  The result is the
    pointer returned, [None] for nil, and the error. *)
Definition head_or_nil (found : Head * option Nonces.gorm_error)
  : option Head * error :=
  let '(number, err) := found in
  match err with
  | Some Nonces.ErrRecordNotFound => (None, None)
  | Some e => (Some number, Nonces.to_error e)
  | None => (Some number, None)
  end.

(** [func (orm *ORM) FirstHead() ( *models.Head, error)] *)
Definition FirstHead (table : list Head) (query_error : option string)
  : option Head * error :=
  head_or_nil (first_head before_asc table query_error).

(** [func (orm *ORM) LastHead() ( *models.Head, error)] *)
Definition LastHead (table : list Head) (query_error : option string)
  : option Head * error :=
  head_or_nil (first_head before_desc table query_error).

(** The key the database gives a new row: above every key in use. *)
Definition next_id (table : list Head) : Z :=
  fold_right (fun h m => Z.max (ID h + 1) m) 1 table.





Example heads_of_a_reorg :
  let table := [mkHead 1 10 "a"; mkHead 2 12 "b"; mkHead 3 11 "c";
                mkHead 4 12 "d"]%string in
  FirstHead table None = (Some (mkHead 1 10 "a"), None)
  /\ LastHead table None = (Some (mkHead 2 12 "b"), None)
  /\ LastHead [] None = (None, None).
Proof. repeat split. Qed.


End Heads.

(** ** [GetConfigValue] and [SetConfigValue] *)

Module Config.

(** A row of [configurations]: the primary key, the name and the value. *)
Record Configuration : Type := mkConfiguration {
  ID : Z;
  Name : string;
  Value : string
}.

Definition has_name (name : string) (c : Configuration) : bool :=
  String.eqb (Name c) name.

(** gorm reads a struct given as a condition or as attributes field by
    field and leaves out the fields that hold their zero value. *)
Definition blank (s : string) : bool := String.eqb s "".

(** [Where(models.Configuration{Name: name})] *)
Definition where_name (name : string) (c : Configuration) : bool :=
  if blank name then true else has_name name c.

(** [Assign(models.Configuration{Name: name, Value: value})] on a row that
    was found. *)
Definition assign (name value : string) (row : Configuration)
  : Configuration :=
  mkConfiguration (ID row)
                  (if blank name then Name row else name)
                  (if blank value then Value row else value).

(** The update that follows goes by the primary key. *)
Definition update (table : list Configuration) (row : Configuration)
  : list Configuration :=
  map (fun r => if ID r =? ID row then row else r) table.

(** The key the database gives a new row: above every key in use. *)
Definition next_id (table : list Configuration) : Z :=
  fold_right (fun c m => Z.max (ID c + 1) m) 1 table.

(** [orm.db.Where(...).Assign(...).FirstOrCreate(&models.Configuration{})];
    the table is read in key order. *)
Definition FirstOrCreate (table : list Configuration) (name value : string)
  : list Configuration :=
  match find (where_name name) table with
  | Some row => update table (assign name value row)
  | None => table ++ [mkConfiguration (next_id table) name value]
  end.

Definition ErrRecordNotFound : error := errors_New "record not found".

Section WithCodec.

(** [EnvVarName] is defined in another file of the package; the values are
    behind the interfaces [encoding.TextMarshaler] and
    [encoding.TextUnmarshaler]. *)
Variable EnvVarName : string -> string.
Variable T : Type.
Variable MarshalText : T -> string * error.
Variable U : Type.
Variable UnmarshalText : U -> string -> U * error.

(** [func (orm *ORM) GetConfigValue(field string,
     value encoding.TextUnmarshaler) error], with [value] afterwards. *)
Definition GetConfigValue (table : list Configuration) (field : string)
    (value : U) : U * error :=
  let name := EnvVarName field in
  match find (has_name name) table with
  | None => (value, ErrRecordNotFound)
  | Some config => UnmarshalText value (Value config)
  end.

(** [func (orm *ORM) SetConfigValue(field string,
     value encoding.TextMarshaler) error]; [db_error] is the error, if any,
    of the database. *)
Definition SetConfigValue (table : list Configuration) (db_error : error)
    (field : string) (value : T) : list Configuration * error :=
  let name := EnvVarName field in
  let '(textValue, err) := MarshalText value in
  match err with
  | Some e => (table, Some e)
  | None =>
      match db_error with
      | Some e => (table, Some e)
      | None => (FirstOrCreate table name textValue, None)
      end
  end.

End WithCodec.

Lemma same_key table x y :
  NoDup (map ID table) -> In x table -> In y table -> ID x = ID y -> x = y.
Proof.
  induction table as [|c table IH]; cbn [map In]; [intros _ []|].
  intros Hnd Hx Hy Heq. inversion Hnd as [|? ? Hc Hnd']; subst.
  destruct Hx as [<-|Hx], Hy as [<-|Hy]; auto.
  - exfalso. apply Hc. rewrite Heq. now apply in_map.
  - exfalso. apply Hc. rewrite <- Heq. now apply in_map.
Qed.

Lemma find_map_same (p : Configuration -> bool) f table :
  (forall x, In x table -> p (f x) = p x /\ (p x = true -> f x = x)) ->
  find p (map f table) = find p table.
Proof.
  induction table as [|c table IH]; intros H; cbn [map find]; [reflexivity|].
  destruct (H c (or_introl eq_refl)) as [Hp Hf]. rewrite Hp.
  destruct (p c) eqn:Hc.
  - now rewrite Hf.
  - apply IH. intros x Hx. apply H. now right.
Qed.

Lemma find_update_found name table row row' :
  NoDup (map ID table) ->
  find (has_name name) table = Some row ->
  ID row' = ID row -> Name row' = name ->
  find (has_name name) (update table row') = Some row'.
Proof.
  intros Hnd Hfind Hid Hname. unfold update.
  induction table as [|c table IH]; cbn [find map] in *; [discriminate|].
  inversion Hnd as [|? ? Hc Hnd']; subst.
  destruct (has_name (Name row') c) eqn:Hcn.
  - inversion Hfind; subst c. rewrite Hid, Z.eqb_refl.
    unfold has_name. now rewrite String.eqb_refl.
  - destruct (ID c =? ID row') eqn:Hsame.
    + exfalso. apply Z.eqb_eq in Hsame. apply Hc.
      apply find_some in Hfind. destruct Hfind as [Hin _].
      rewrite Hsame, Hid. now apply in_map.
    + rewrite Hcn. now apply IH.
Qed.

Lemma find_update_other name other table row row' :
  NoDup (map ID table) -> In row table ->
  ID row' = ID row -> Name row = name -> Name row' = name ->
  other <> name ->
  find (has_name other) (update table row') = find (has_name other) table.
Proof.
  intros Hnd Hin Hid Hrow Hrow' Hother. unfold update.
  apply find_map_same. intros x Hx.
  destruct (ID x =? ID row') eqn:Hsame; [|auto].
  apply Z.eqb_eq in Hsame.
  assert (x = row) by (apply (same_key table); auto; congruence).
  subst x. unfold has_name. rewrite Hrow, Hrow'.
  replace (String.eqb name other) with false
    by (symmetry; apply String.eqb_neq; congruence).
  split; [reflexivity|discriminate].
Qed.

Lemma update_keys table row : map ID (update table row) = map ID table.
Proof.
  unfold update. rewrite map_map. apply map_ext_in. intros c _.
  destruct (ID c =? ID row) eqn:H; [|reflexivity].
  apply Z.eqb_eq in H. now symmetry.
Qed.

Lemma update_present table row :
  NoDup (map ID table) -> In row table -> update table row = table.
Proof.
  intros Hnd Hin. unfold update. rewrite <- (map_id table) at 2.
  apply map_ext_in. intros c Hc.
  destruct (ID c =? ID row) eqn:H; [|reflexivity].
  apply Z.eqb_eq in H. symmetry. now apply (same_key table).
Qed.

Lemma new_key_above table c : In c table -> ID c < next_id table.
Proof.
  induction table as [|x table IH]; [intros []|].
  intros [<-|Hc]; cbn [next_id fold_right].
  - lia.
  - specialize (IH Hc). unfold next_id in IH. lia.
Qed.

Lemma find_app_none (p : Configuration -> bool) table c :
  find p table = None -> find p (table ++ [c]) = find p [c].
Proof.
  induction table as [|x table IH]; cbn [app find]; [reflexivity|].
  destruct (p x); [discriminate|exact IH].
Qed.

Lemma find_app_other (p : Configuration -> bool) table c :
  p c = false -> find p (table ++ [c]) = find p table.
Proof.
  intros Hc. induction table as [|x table IH]; cbn [app find].
  - now rewrite Hc.
  - destruct (p x); [reflexivity|exact IH].
Qed.

Lemma where_name_nonblank name :
  name <> ""%string -> where_name name = has_name name.
Proof.
  intros H. unfold where_name, blank.
  now replace (String.eqb name "") with false
    by (symmetry; now apply String.eqb_neq).
Qed.

Lemma FirstOrCreate_keys table name value :
  NoDup (map ID table) -> NoDup (map ID (FirstOrCreate table name value)).
Proof.
  intros Hnd. unfold FirstOrCreate.
  destruct (find (where_name name) table) as [row|].
  - now rewrite update_keys.
  - rewrite map_app. cbn [map ID].
    apply NoDup_app; [exact Hnd|constructor; [intros []|constructor]|].
    intros k Hk [<-|[]]. apply in_map_iff in Hk.
    destruct Hk as [c [Hk Hc]]. apply new_key_above in Hc. lia.
Qed.

Lemma FirstOrCreate_stored table name value :
  NoDup (map ID table) ->
  name <> ""%string -> value <> ""%string ->
  exists row,
    In row (FirstOrCreate table name value)
    /\ find (has_name name) (FirstOrCreate table name value) = Some row
    /\ Name row = name /\ Value row = value.
Proof.
  intros Hnd Hname Hvalue. unfold FirstOrCreate.
  rewrite (where_name_nonblank _ Hname).
  destruct (find (has_name name) table) as [row|] eqn:Hfind.
  - assert (Hassign : assign name value row
                      = mkConfiguration (ID row) name value).
    { unfold assign, blank.
      replace (String.eqb name "") with false
        by (symmetry; now apply String.eqb_neq).
      now replace (String.eqb value "") with false
        by (symmetry; now apply String.eqb_neq). }
    rewrite Hassign. exists (mkConfiguration (ID row) name value).
    assert (Hf : find (has_name name)
                   (update table (mkConfiguration (ID row) name value))
                 = Some (mkConfiguration (ID row) name value))
      by now apply (find_update_found name table row).
    split; [now apply find_some in Hf|]. auto.
  - exists (mkConfiguration (next_id table) name value).
    split; [apply in_or_app; right; now left|].
    split; [|auto]. rewrite find_app_none by exact Hfind.
    cbn [find]. unfold has_name. cbn [Name]. now rewrite String.eqb_refl.
Qed.

Example set_then_get :
  let table := [mkConfiguration 1 "ETH_GAS_PRICE_DEFAULT" "20";
                mkConfiguration 2 "LOG_LEVEL" "info"]%string in
  FirstOrCreate table "LOG_LEVEL" "debug"
  = [mkConfiguration 1 "ETH_GAS_PRICE_DEFAULT" "20";
     mkConfiguration 2 "LOG_LEVEL" "debug"]%string
  /\ FirstOrCreate table "MIN_OUTGOING_CONFIRMATIONS" "6"
     = table ++ [mkConfiguration 3 "MIN_OUTGOING_CONFIRMATIONS"%string
                                     "6"%string].
Proof. split; reflexivity. Qed.

(** X15. [SetConfigValue] followed by [GetConfigValue] is a round trip.
    On a table with distinct keys, when the value marshals to a non-empty
    text and the field has a non-empty name, a successful [SetConfigValue]
    makes [GetConfigValue] of that field hand exactly that text to
    [UnmarshalText]; fields with another name read what they read before;
    the table gains one row when the name was new and none otherwise; and
    setting the same value again changes nothing.  When marshalling fails,
    whatever the table, the name and the state of the database, and when
    the database fails, the table is left as it was and the error is
    returned. *)
Theorem SetConfigValue_then_GetConfigValue
    (EnvVarName : string -> string)
    (T : Type) (MarshalText : T -> string * error)
    (U : Type) (UnmarshalText : U -> string -> U * error)
    (table : list Configuration) (field : string) (value : T) :
  let set := SetConfigValue EnvVarName T MarshalText in
  let get := GetConfigValue EnvVarName U UnmarshalText in
  (NoDup (map ID table) ->
   EnvVarName field <> EmptyString ->
   forall text,
     MarshalText value = (text, None) ->
     text <> EmptyString ->
     let table1 := fst (set table None field value) in
     snd (set table None field value) = None
     /\ (forall u, get table1 field u = UnmarshalText u text)
     /\ (forall other u,
           EnvVarName other <> EnvVarName field ->
           get table1 other u = get table other u)
     /\ match find (has_name (EnvVarName field)) table with
        | Some _ => List.length table1 = List.length table
        | None => exists row, table1 = table ++ [row]
        end
     /\ set table1 None field value = (table1, None))
  /\ (forall text e db_error,
        MarshalText value = (text, Some e) ->
        set table db_error field value = (table, Some e))
  /\ (forall text e,
        MarshalText value = (text, None) ->
        set table (Some e) field value = (table, Some e)).
Proof.
  intros set get. split; [|split].
  2: { intros text e db_error Hm. unfold set, SetConfigValue.
       now rewrite Hm. }
  2: { intros text e Hm. unfold set, SetConfigValue. now rewrite Hm. }
  intros Hkeys Hname text Hmarshal Htext table1.
  assert (Htable1 : table1 = FirstOrCreate table (EnvVarName field) text).
  { unfold table1, set, SetConfigValue. now rewrite Hmarshal. }
  assert (Hset : forall t, set t None field value
                           = (FirstOrCreate t (EnvVarName field) text, None)).
  { intros t. unfold set, SetConfigValue. now rewrite Hmarshal. }
  destruct (FirstOrCreate_stored table _ _ Hkeys Hname Htext)
    as (row & Hin & Hfind & Hrow & Hval).
  rewrite <- Htable1 in Hin, Hfind.
  split; [now rewrite Hset|].
  split; [|split; [|split]].
  - intros u. unfold get, GetConfigValue. now rewrite Hfind, Hval.
  - intros other u Hother. unfold get, GetConfigValue.
    replace (find (has_name (EnvVarName other)) table1)
      with (find (has_name (EnvVarName other)) table); [reflexivity|].
    rewrite Htable1. unfold FirstOrCreate.
    rewrite (where_name_nonblank _ Hname).
    destruct (find (has_name (EnvVarName field)) table) as [old|] eqn:Hold.
    + symmetry. apply find_some in Hold. destruct Hold as [Hino Hn].
      apply String.eqb_eq in Hn.
      apply (find_update_other (EnvVarName field) _ table old); auto.
      unfold assign, blank. cbn [Name].
      now replace (String.eqb (EnvVarName field) "") with false
        by (symmetry; now apply String.eqb_neq).
    + symmetry. apply find_app_other. unfold has_name. cbn [Name].
      apply String.eqb_neq. congruence.
  - rewrite Htable1. unfold FirstOrCreate.
    rewrite (where_name_nonblank _ Hname).
    destruct (find (has_name (EnvVarName field)) table) as [old|].
    + unfold update. now rewrite length_map.
    + eexists. reflexivity.
  - rewrite Hset. f_equal. unfold FirstOrCreate at 1.
    rewrite (where_name_nonblank _ Hname), Hfind.
    assert (Hsame : assign (EnvVarName field) text row = row).
    { unfold assign, blank.
      replace (String.eqb (EnvVarName field) "") with false
        by (symmetry; now apply String.eqb_neq).
      replace (String.eqb text "") with false
        by (symmetry; now apply String.eqb_neq).
      destruct row as [i n v]. cbn [ID Name Value] in *. congruence. }
    rewrite Hsame. apply update_present; [|exact Hin].
    rewrite Htable1. now apply FirstOrCreate_keys.
Qed.

Lemma SetConfigValue_then_GetConfigValue_witness :
  let EnvVarName := fun field : string => field in
  let MarshalText := fun v : string => (v, @None (list string)) in
  let UnmarshalText :=
    fun (_ : string) (s : string) => (s, @None (list string)) in
  let table := [mkConfiguration 1 "LOG_LEVEL" "info"]%string in
  GetConfigValue EnvVarName string UnmarshalText
    (fst (SetConfigValue EnvVarName string MarshalText table None
            "MIN_OUTGOING_CONFIRMATIONS"%string "6"%string))
    "MIN_OUTGOING_CONFIRMATIONS"%string "unset"%string
  = ("6"%string, None).
Proof.
  intros EnvVarName MarshalText UnmarshalText table.
  assert (Hkeys : NoDup (map ID table)).
  { cbn. constructor; [intros []|constructor]. }
  assert (Hname : EnvVarName "MIN_OUTGOING_CONFIRMATIONS"%string
                  <> EmptyString)
    by discriminate.
  assert (Htext : "6"%string <> EmptyString) by discriminate.
  exact (proj1 (proj2 (proj1 (SetConfigValue_then_GetConfigValue
                                EnvVarName string MarshalText string
                                UnmarshalText table
                                "MIN_OUTGOING_CONFIRMATIONS"%string
                                "6"%string)
                             Hkeys Hname "6"%string eq_refl Htext))
               "unset"%string).
Defined.

End Config.
